(** * lispish: tokenizer, reader, environment chain and evaluator

    A shallow embedding of [main.py].  Python values are modelled as follows.

    - Text is a [string] of 8-bit characters; the development covers ASCII
      input (Python's Unicode whitespace and Unicode digits outside ASCII
      are not represented).
    - A Python [int] is a [Z].  The interpreter's configurable limit on the
      length of integer/string conversions is not part of the program and
      is not modelled.
    - Exceptions are values of [Exn]; a computation that can raise returns
      a [Result].
    - [Environment] objects are mutable and aliased (a frame is reachable
      from every frame and closure created under it), so they live in a
      store, a [list Environment] addressed by position.
    - Loops and recursion that the source does not bound ([InStream.next],
      [read_ahead], [eval_]) take a step budget; [None] means that the
      budget was used up before a result or an exception was produced. *)

From Stdlib Require Import ZArith Ascii String.
From stdpp Require Import gmap strings list pretty.

Local Set Warnings "-register-all".
Local Open Scope string_scope.
Local Open Scope Z_scope.
Local Open Scope list_scope.

(** ** Exceptions *)

Inductive Exn : Type :=
  | ValueError (msg : string)
  | TypeError
  | SyntaxError (msg : string)
  | AssertionError
  | IndexError.

Inductive Result (A : Type) : Type :=
  | Ok (a : A)
  | Raise (e : Exn).
Arguments Ok {A} a.
Arguments Raise {A} e.

(** ** Characters and the pieces of [TOKEN_REGEX] *)

Definition code (c : ascii) : N := N_of_ascii c.

(** [\s] of a [str] pattern, on ASCII: tab, newline, vertical tab, form
    feed, carriage return, the four separators 0x1c-0x1f and the space. *)
Definition re_space (c : ascii) : bool :=
  let n := code c in
  ((9 <=? n) && (n <=? 13) || (28 <=? n) && (n <=? 32))%N.

(** [.] without DOTALL: every character except the newline. *)
Definition re_dot (c : ascii) : bool := negb (code c =? 10)%N.

Definition is_paren (c : ascii) : bool := ((code c =? 40) || (code c =? 41))%N.
Definition is_dquote (c : ascii) : bool := (code c =? 34)%N.
Definition is_backslash (c : ascii) : bool := (code c =? 92)%N.
Definition is_semicolon (c : ascii) : bool := (code c =? 59)%N.

(** The class of characters of a bare token: everything but whitespace,
    the two parentheses, the single quote, the double quote, the backquote,
    the comma and the semicolon. *)
Definition re_bare (c : ascii) : bool :=
  let n := code c in
  negb (re_space c
        || (n =? 40) || (n =? 39) || (n =? 34) || (n =? 96)
        || (n =? 44) || (n =? 59) || (n =? 41))%N.

(** Greedy [c*] for a character class [p]: the longest prefix inside the
    class and what follows it. *)
Fixpoint re_star (p : ascii -> bool) (s : string) : string * string :=
  match s with
  | EmptyString => (EmptyString, EmptyString)
  | String c r =>
      if p c then let '(m, k) := re_star p r in (String c m, k)
      else (EmptyString, s)
  end.

(** The string alternative of the regex, read after the opening double
    quote: a run of escapes (a backslash and any character but the newline)
    and of characters other than backslash and double quote, then the
    closing double quote.  The two branches of the run and the closing
    quote start with different characters, so
    the backtracking matcher has a single path: [Some (body, rest)] where
    [body] ends with the closing quote, or [None] when no closing quote is
    reached. *)
Fixpoint re_string_body (s : string) : option (string * string) :=
  match s with
  | EmptyString => None
  | String c r =>
      if is_dquote c then Some (String c EmptyString, r)
      else if is_backslash c then
        match r with
        | EmptyString => None
        | String d r' =>
            if re_dot d then
              match re_string_body r' with
              | Some (m, k) => Some (String c (String d m), k)
              | None => None
              end
            else None
        end
      else
        match re_string_body r with
        | Some (m, k) => Some (String c m, k)
        | None => None
        end
  end.

(** [re.match(TOKEN_REGEX, line).groups()].  The last alternative of the
    first group matches the empty string and the second group matches
    any run of characters other than the newline, so
    the match never fails; the second group stops before a newline and
    whatever follows the newline is dropped. *)
Definition TOKEN_REGEX_groups (line : string) : string * string :=
  let s := snd (re_star re_space line) in
  match s with
  | EmptyString => (EmptyString, EmptyString)
  | String c r =>
      if is_paren c then (String c EmptyString, fst (re_star re_dot r))
      else if is_dquote c then
        match re_string_body r with
        | Some (m, k) => (String c m, fst (re_star re_dot k))
        | None => (EmptyString, fst (re_star re_dot s))
        end
      else if is_semicolon c then
        let '(m, k) := re_star re_dot s in (m, fst (re_star re_dot k))
      else
        let '(m, k) := re_star re_bare s in (m, fst (re_star re_dot k))
  end.

(** ** Tokens *)

(** A [Token] is a [str]; [InStream.EOF_TOKEN] is one particular object,
    told apart from every other string by identity ([is]).  [Tok s] is
    any other string object with text [s]. *)
Inductive Token : Type :=
  | EOF_TOKEN
  | Tok (s : string).

Definition text (t : Token) : string :=
  match t with
  | EOF_TOKEN => "#<eof-object>"
  | Tok s => s
  end.

(** [token is InStream.EOF_TOKEN] *)
Definition is_EOF_TOKEN (t : Token) : bool :=
  match t with EOF_TOKEN => true | Tok _ => false end.

(** ** InStream *)

(** [f] is the text source, given by the lines its successive [readline]
    calls return (after the last one [readline] returns the empty string);
    [line] is the read-ahead buffer, [None] before the first read. *)
Record InStream : Type := mkInStream {
  f : list string;
  line : option string
}.

Definition InStream_init (lines : list string) : InStream :=
  mkInStream lines None.

Definition readline (src : list string) : string * list string :=
  match src with
  | [] => (EmptyString, [])
  | l :: ls => (l, ls)
  end.

(** [not self.line]: the buffer is [None] or the empty string. *)
Definition line_falsy (l : option string) : bool :=
  match l with
  | None => true
  | Some EmptyString => true
  | Some _ => false
  end.

Definition nonempty (s : string) : bool :=
  match s with EmptyString => false | _ => true end.

(** [InStream.next]; one unit of budget per turn of the [while] loop. *)
Fixpoint next (fuel : nat) (st : InStream) : option (Token * InStream) :=
  match fuel with
  | O => None
  | S n =>
      let '(l, src) :=
        if line_falsy (line st) then readline (f st)
        else (default EmptyString (line st), f st) in
      if negb (nonempty l) then Some (EOF_TOKEN, mkInStream src (Some l))
      else
        let '(token, rest) := TOKEN_REGEX_groups l in
        if nonempty token then Some (Tok token, mkInStream src (Some rest))
        else next n (mkInStream src (Some rest))
  end.

(** ** The expression model *)

(** An address in the store of environments. *)
Abbreviation addr := nat (only parsing).

(** [Symbol] is a [str] that keeps the string object it was built from in
    [token]; its text (the [str] value, and [value]) is [text token].
    [Number] is an [int] with [value], and [token] is the text of what it
    was built from.
    [Procedure] holds [params], [body] and a reference to the captured
    environment.  [BuiltinProcedure] holds a native callable, named by its
    index in the table of callables the evaluator is run with. *)
Inductive Expression : Type :=
  | Symbol (token : Token)
  | Number (value : Z) (token : string)
  | List (items : list Expression)
  | Procedure (params : list Expression) (body : Expression) (env : addr)
  | BuiltinProcedure (callable : nat).

(** What a native callable may hand back before it is wrapped: an [int],
    a [str], a plain [list], or [None]. *)
Inductive Raw : Type :=
  | RInt (z : Z)
  | RStr (t : Token)
  | RList (items : list Expression)
  | RNone.

Definition isinstance_Symbol (e : Expression) : bool :=
  match e with Symbol _ => true | _ => false end.

(** [a == b] for a [Symbol] constant [b]: string equality on the text;
    a [Number], [List] or [Procedure] never equals a [Symbol]. *)
Definition eq_Symbol (a : Expression) (b : Token) : bool :=
  match a with
  | Symbol t => String.eqb (text t) (text b)
  | _ => false
  end.

(** ** [int(str)] and [Atom.of] *)

(** Whitespace skipped by [int] around an ASCII literal. *)
Definition int_space (c : ascii) : bool :=
  let n := code c in ((9 <=? n) && (n <=? 13) || (n =? 32))%N.

Definition is_digit (c : ascii) : bool :=
  let n := code c in ((48 <=? n) && (n <=? 57))%N.

Definition is_underscore (c : ascii) : bool := (code c =? 95)%N.

(** Value of a run of digits and underscores; [None] on two underscores
    in a row or an underscore at the end. *)
Fixpoint int_digits (s : string) (prev_underscore : bool) (acc : Z) : option Z :=
  match s with
  | EmptyString => if prev_underscore then None else Some acc
  | String c r =>
      if is_underscore c then
        if prev_underscore then None else int_digits r true acc
      else int_digits r false (10 * acc + Z.of_N (code c - 48))
  end.

(** [int(s)] in base ten: optional whitespace, an optional sign, digits
    with single underscores between them, optional whitespace.  [None]
    stands for [ValueError]. *)
Definition int_of_str (s : string) : option Z :=
  let s1 := snd (re_star int_space s) in
  let '(sign, s2) :=
    match s1 with
    | String c r =>
        if (code c =? 43)%N then (1, r)
        else if (code c =? 45)%N then (-1, r)
        else (1, s1)
    | EmptyString => (1, s1)
    end in
  let '(body, s3) := re_star (fun c => is_digit c || is_underscore c) s2 in
  match body with
  | EmptyString => None
  | String c _ =>
      if is_underscore c then None
      else
        match int_digits body false 0 with
        | None => None
        | Some v =>
            if nonempty (snd (re_star int_space s3)) then None
            else Some (sign * v)
        end
  end.

(** [Atom.of].  [Number(token)] succeeds on an [int] and on a string that
    [int] accepts; on a string it rejects, the [ValueError] is caught and a
    [Symbol] is built; on a list or [None], [int] raises [TypeError],
    which is not caught. *)
Definition Atom_of (token : Raw) : Result Expression :=
  match token with
  | RInt z => Ok (Number z (pretty z))
  | RStr t =>
      match int_of_str (text t) with
      | Some z => Ok (Number z (text t))
      | None => Ok (Symbol t)
      end
  | RList _ => Raise TypeError
  | RNone => Raise TypeError
  end.

(** ** Reader *)

Definition EOF_SYMBOL : Expression := Symbol EOF_TOKEN.

(** [read_ahead] and the [while] loop of its list branch, [L] being the
    list built so far. *)
Fixpoint read_ahead (fuel : nat) (token : Token) (st : InStream)
  : option (InStream * Result Expression) :=
  match fuel with
  | O => None
  | S n =>
      if String.eqb (text token) "(" then read_list n [] st
      else if String.eqb (text token) ")" then
        Some (st, Raise (SyntaxError "Unexpected )"))
      else if is_EOF_TOKEN token then
        Some (st, Raise (SyntaxError "Unexpected EOF in list"))
      else
        Some (st, Atom_of (RStr token))
  end
with read_list (fuel : nat) (L : list Expression) (st : InStream)
  : option (InStream * Result Expression) :=
  match fuel with
  | O => None
  | S n =>
      match next n st with
      | None => None
      | Some (token, st1) =>
          if String.eqb (text token) ")" then Some (st1, Ok (List L))
          else
            match read_ahead n token st1 with
            | None => None
            | Some (st2, Raise e) => Some (st2, Raise e)
            | Some (st2, Ok x) => read_list n (L ++ [x]) st2
            end
      end
  end.

Definition read (fuel : nat) (stream : InStream)
  : option (InStream * Result Expression) :=
  match next fuel stream with
  | None => None
  | Some (token, st1) =>
      if is_EOF_TOKEN token then Some (st1, Ok EOF_SYMBOL)
      else read_ahead fuel token st1
  end.

(** ** Environment *)

(** One frame: the dictionary [env], keyed by the text of the symbols
    (a [Symbol] hashes and compares as its string), and the reference
    [outer] to the enclosing frame. *)
Record Environment : Type := mkEnvironment {
  env : gmap string Expression;
  outer : option addr
}.

(** The store of all [Environment] objects created so far; a new object
    takes the next free address.  An address outside the store denotes no
    object, and an operation on it yields [None]. *)
Abbreviation heap := (list Environment) (only parsing).

(** A computation on the store that may raise, or run out of budget. *)
Definition M (A : Type) : Type := heap -> option (heap * Result A).

Definition ret {A} (a : A) : M A := fun h => Some (h, Ok a).
Definition raise {A} (e : Exn) : M A := fun h => Some (h, Raise e).
Definition lift {A} (r : Result A) : M A := fun h => Some (h, r).
Definition bind {A B} (m : M A) (k : A -> M B) : M B :=
  fun h =>
    match m h with
    | None => None
    | Some (h1, Raise e) => Some (h1, Raise e)
    | Some (h1, Ok a) => k a h1
    end.

Notation "x <- m ;; k" := (bind m (fun x => k))
  (at level 100, m at next level, right associativity).

(** [list(map(g, l))]: left to right, stopping at the first exception. *)
Fixpoint mapM (g : Expression -> M Expression) (l : list Expression)
  : M (list Expression) :=
  match l with
  | [] => ret []
  | x :: xs => v <- g x ;; vs <- mapM g xs ;; ret (v :: vs)
  end.

Definition key (sym : Expression) : string :=
  match sym with Symbol t => text t | _ => EmptyString end.

(** [self.env[param] = arg] *)
Definition put (m : gmap string Expression) (pa : Expression * Expression)
  : gmap string Expression :=
  <[key pa.1 := pa.2]> m.

(** The loop [for param, arg in zip(params, args): self.env[param] = arg]. *)
Definition bind_params (params args : list Expression)
  : gmap string Expression :=
  fold_left put (zip params args) ∅.

(** [Environment.__init__]: every parameter must be a [Symbol]; the
    checks on [args] and [outer] cannot fail on values of these types. *)
Definition Environment_init (params args : list Expression)
    (outer : option addr) : Result Environment :=
  if forallb isinstance_Symbol params
  then Ok (mkEnvironment (bind_params params args) outer)
  else Raise TypeError.

(** [Environment.__getitem__], following [outer] while the symbol is not
    bound locally. *)
Fixpoint Environment_getitem (fuel : nat) (h : heap) (self : addr)
    (sym : Expression) : option (Result Expression) :=
  match fuel with
  | O => None
  | S n =>
      if negb (isinstance_Symbol sym) then Some (Raise TypeError)
      else
        match h !! self with
        | None => None
        | Some fr =>
            match env fr !! key sym with
            | Some v => Some (Ok v)
            | None =>
                match outer fr with
                | Some o => Environment_getitem n h o sym
                | None =>
                    Some (Raise (ValueError ("Undefined symbol: " +:+ key sym)))
                end
            end
        end
  end.

(** [Environment.__setitem__]: writes into the frame [self] only. *)
Definition Environment_setitem (self : addr) (sym exp : Expression) : M unit :=
  fun h =>
    if negb (isinstance_Symbol sym) then Some (h, Raise TypeError)
    else
      match h !! self with
      | None => None
      | Some fr =>
          Some (<[self := mkEnvironment (<[key sym := exp]> (env fr)) (outer fr)]> h,
                Ok tt)
      end.

(** Creation of an [Environment] object: it is placed at the next free
    address, which is returned. *)
Definition new_Environment (params args : list Expression)
    (outer : option addr) : M addr :=
  fun h =>
    match Environment_init params args outer with
    | Raise e => Some (h, Raise e)
    | Ok fr => Some (h ++ [fr], Ok (List.length h))
    end.

(** ** Evaluator *)

Definition DEFINE : Token := Tok "define".
Definition BEGIN : Token := Tok "begin".
Definition NIL : Expression := Symbol (Tok "nil").

(** Truth value of an expression: a [Symbol] is a string, a [Number] an
    integer and a [List] a list, so the empty text, zero and the empty
    list are false; procedures are plain objects and are true. *)
Definition truthy (e : Expression) : bool :=
  match e with
  | Symbol t => nonempty (text t)
  | Number v _ => negb (v =? 0)
  | List items => match items with [] => false | _ => true end
  | Procedure _ _ _ => true
  | BuiltinProcedure _ => true
  end.

(** [not exp] for [exp : Optional[Expression]]. *)
Definition falsy (exp : option Expression) : bool :=
  match exp with
  | None => true
  | Some e => negb (truthy e)
  end.

(** [values[-1]] *)
Definition last_value (values : list Expression) : Result Expression :=
  match last values with
  | Some v => Ok v
  | None => Raise IndexError
  end.

Section Evaluator.

(** The native callables that [BuiltinProcedure] objects refer to. *)
Variable callables : nat -> list Expression -> Result Raw.

(** [apply_], with [Procedure.__call__] and [BuiltinProcedure.__call__]
    in place of the dynamic dispatch of [proc(args)]; [ev] is [eval_]. *)
Definition apply_ (ev : option Expression -> addr -> M Expression)
    (proc : Expression) (args : list Expression) : M Expression :=
  match proc with
  | Procedure params body penv =>
      frame <- new_Environment params args (Some penv) ;;
      ev (Some body) frame
  | BuiltinProcedure c =>
      raw <- lift (callables c args) ;;
      lift (Atom_of raw)
  | _ => raise TypeError
  end.

Fixpoint eval_ (fuel : nat) (exp : option Expression) (env : addr)
  : M Expression :=
  match fuel with
  | O => fun _ => None
  | S n =>
      if falsy exp then raise (ValueError "Can't evaluate nothing")
      else
        match exp with
        | None => raise (ValueError "Can't evaluate nothing")
        | Some (Symbol t) =>
            fun h =>
              match Environment_getitem n h env (Symbol t) with
              | None => None
              | Some r => Some (h, r)
              end
        | Some (Number v tk) => ret (Number v tk)
        | Some (List items) =>
            match items with
            | [] => raise (ValueError "not enough values to unpack")
            | first :: rest =>
                if eq_Symbol first DEFINE then
                  match rest with
                  | [sym; val] =>
                      _ <- Environment_setitem env sym val ;;
                      ret NIL
                  | _ => raise AssertionError
                  end
                else if eq_Symbol first BEGIN then
                  inner <- new_Environment [] [] (Some env) ;;
                  values <- mapM (fun x => eval_ n (Some x) inner) rest ;;
                  lift (last_value values)
                else
                  proc <- eval_ n (Some first) env ;;
                  args <- mapM (fun x => eval_ n (Some x) env) rest ;;
                  apply_ (eval_ n) proc args
            end
        | Some _ => raise TypeError
        end
  end.

End Evaluator.

(** ** The global environment *)

(** [a + b] on expression objects: integers add, strings and lists
    concatenate (giving a plain [int], [str] or [list]); every other
    pairing raises [TypeError]. *)
Definition py_add (a b : Expression) : Result Raw :=
  match a, b with
  | Number x _, Number y _ => Ok (RInt (x + y))
  | Symbol s, Symbol t => Ok (RStr (Tok (text s +:+ text t)))
  | List x, List y => Ok (RList (x ++ y))
  | _, _ => Raise TypeError
  end.

(** [lambda a, b: a + b] called as [callable( *args)]. *)
Definition lambda_add (args : list Expression) : Result Raw :=
  match args with
  | [a; b] => py_add a b
  | _ => Raise TypeError
  end.

(** The callables of this program: the addition is the only one. *)
Definition global_callables (c : nat) : list Expression -> Result Raw :=
  lambda_add.

(** [global_env] after the module has been loaded: the single frame at
    address 0, binding [+]. *)
Definition global_env : addr := 0%nat.
Definition global_heap : heap :=
  [mkEnvironment {["+" := BuiltinProcedure 0]} None].

(** Text used in the examples below. *)
Definition nl : string := String (ascii_of_N 10) EmptyString.


(** Every [outer] reference held in the store points into the store. *)
Definition heap_closed (h : heap) : Prop :=
  forall b fr o, h !! b = Some fr -> outer fr = Some o -> (o < List.length h)%nat.

(** [m'] produces every result that [m] produces. *)
Definition le_M {A} (m m' : M A) : Prop :=
  forall h r, m h = Some r -> m' h = Some r.

(** [keeps b Q m]: run on a store with at least [b] frames, [m] only adds
    frames, leaves the frames below [b] as they are, and returns a value
    in [Q]. *)
Definition keeps {A} (b : nat) (Q : A -> Prop) (m : M A) : Prop :=
  forall h h' r, (b <= List.length h)%nat -> m h = Some (h', r) ->
    (List.length h <= List.length h')%nat /\
    (forall a, (a < b)%nat -> h' !! a = h !! a) /\
    (forall v, r = Ok v -> Q v).

(** ** Further definitions used by the properties below *)

(** [Environment.update]: [mappings] is the dictionary, given by its
    items in insertion order; each key is checked and then written with
    [self[sym] = exp]. *)
Fixpoint Environment_update (self : addr)
    (mappings : list (Expression * Expression)) : M unit :=
  match mappings with
  | [] => ret tt
  | (sym, exp) :: rest =>
      if negb (isinstance_Symbol sym) then raise TypeError
      else
        _ <- Environment_setitem self sym exp ;;
        Environment_update self rest
  end.

(** One turn of the loop of [repl]: an expression is read from the
    stream and evaluated in [global_env]; an exception of either step is
    caught.  The turn yields what is handed to [print]: the value, or the
    exception (the printed text itself is not modelled). *)
Definition repl_turn (callables : nat -> list Expression -> Result Raw)
    (fuel : nat) (stream : InStream) (h : heap)
  : option (InStream * heap * Result Expression) :=
  match read fuel stream with
  | None => None
  | Some (st, Raise e) => Some (st, h, Raise e)
  | Some (st, Ok exp) =>
      match eval_ callables fuel (Some exp) global_env h with
      | None => None
      | Some (h', r) => Some (st, h', r)
      end
  end.

(** The first [turns] turns of [repl], with what each one prints. *)
Fixpoint repl (callables : nat -> list Expression -> Result Raw)
    (fuel turns : nat) (stream : InStream) (h : heap)
  : option (list (Result Expression) * InStream * heap) :=
  match turns with
  | O => Some ([], stream, h)
  | S k =>
      match repl_turn callables fuel stream h with
      | None => None
      | Some (st, h', r) =>
          match repl callables fuel k st h' with
          | None => None
          | Some (rs, st', h'') => Some (r :: rs, st', h'')
          end
      end
  end.

(** Every [outer] reference points to a frame created earlier. *)
Definition heap_ordered (h : heap) : Prop :=
  forall b fr o, h !! b = Some fr -> outer fr = Some o -> (o < b)%nat.

(** The expression holds no [Procedure] object with parameters and body
    (builtin procedures are allowed). *)
Fixpoint no_closure (e : Expression) : bool :=
  match e with
  | Symbol _ => true
  | Number _ _ => true
  | List items => forallb no_closure items
  | Procedure _ _ _ => false
  | BuiltinProcedure _ => true
  end.

(** No frame of the store binds a value that holds a closure. *)
Definition heap_plain (h : heap) : Prop :=
  forall b fr k v, h !! b = Some fr -> env fr !! k = Some v -> no_closure v = true.

(** Number of nodes of an expression. *)
Fixpoint esize (e : Expression) : nat :=
  match e with
  | List items => S (list_sum (map esize items))
  | _ => 1%nat
  end.

(** The expression is built from symbols of non-empty text, numbers and
    lists only: what the reader produces. *)
Fixpoint read_shape (e : Expression) : bool :=
  match e with
  | Symbol t => nonempty (text t)
  | Number _ _ => true
  | List items => forallb read_shape items
  | Procedure _ _ _ => false
  | BuiltinProcedure _ => false
  end.

(** The kinds of token the regex can capture. *)
Definition token_shape (s : string) : Prop :=
  s = "(" \/ s = ")"
  \/ (exists m, s = String (ascii_of_N 34) m /\ re_string_body m = Some (m, EmptyString))
  \/ (exists m, s = String (ascii_of_N 59) m /\ forallb re_dot (list_ascii_of_string m) = true)
  \/ (nonempty s = true /\ forallb re_bare (list_ascii_of_string s) = true).

(** The store invariant of a program without closures. *)
Definition store_ok (h : heap) : Prop := heap_ordered h /\ heap_plain h.

(** [m] run on [h] produces a result, adds fewer than [bound] frames,
    keeps the store invariant and returns a value in [Q]. *)
Definition halts_within {A} (Q : A -> Prop) (bound : nat) (m : M A)
    (h : heap) : Prop :=
  exists h' r,
    m h = Some (h', r)
    /\ (List.length h <= List.length h')%nat
    /\ (List.length h' < List.length h + bound)%nat
    /\ store_ok h'
    /\ (forall v, r = Ok v -> Q v).

(** The characters that end a bare token and that no alternative of the
    regex matches: the single quote, the backquote and the comma. *)
Definition re_unmatched (c : ascii) : bool :=
  let n := code c in ((n =? 39) || (n =? 96) || (n =? 44))%N.

(** A line made of whitespace only. *)
Definition blank (l : string) : bool :=
  forallb re_space (list_ascii_of_string l).

(** The text holds no single quote, backquote, comma or double quote. *)
Fixpoint clean (s : string) : bool :=
  match s with
  | EmptyString => true
  | String c r => negb (re_unmatched c || is_dquote c) && clean r
  end.

(** Buffer and remaining lines of the stream are [clean]. *)
Definition stream_clean (st : InStream) : Prop :=
  clean (default EmptyString (line st)) = true
  /\ Forall (fun l => clean l = true) (f st).

(** Number of characters left in the stream, counting one more for each
    line still to be read. *)
Definition pending (st : InStream) : nat :=
  String.length (default EmptyString (line st))
  + list_sum (map (fun l => S (String.length l)) (f st)).

(** * Properties *)

(** ** Step budgets: a result, once produced, survives any larger budget *)

Lemma next_mono (n m : nat) (st : InStream) (r : Token * InStream) :
  next n st = Some r -> (n <= m)%nat -> next m st = Some r.
Proof.
  revert m st. induction n as [|n IH]; intros m st H Hle; [discriminate|].
  destruct m as [|m]; [lia|]. simpl in *.
  destruct (if line_falsy (line st) then readline (f st)
            else (default EmptyString (line st), f st)) as [l src].
  destruct (negb (nonempty l)); [exact H|].
  destruct (TOKEN_REGEX_groups l) as [token rest].
  destruct (nonempty token); [exact H|].
  apply IH; [exact H | lia].
Qed.

Lemma read_ahead_list_mono (n : nat) :
  (forall m token st r, read_ahead n token st = Some r -> (n <= m)%nat ->
     read_ahead m token st = Some r) /\
  (forall m L st r, read_list n L st = Some r -> (n <= m)%nat ->
     read_list m L st = Some r).
Proof.
  induction n as [|n [IHa IHl]]; [split; intros; discriminate|].
  split.
  - intros m token st r H Hle. destruct m as [|m]; [lia|]. simpl in *.
    destruct (String.eqb (text token) "("); [apply IHl; [exact H | lia]|].
    exact H.
  - intros m L st r H Hle. destruct m as [|m]; [lia|]. simpl in *.
    destruct (next n st) as [[token st1]|] eqn:Hn; [|discriminate].
    rewrite (next_mono n m st _ Hn) by lia.
    destruct (String.eqb (text token) ")"); [exact H|].
    destruct (read_ahead n token st1) as [[st2 [x|e]]|] eqn:Ha; try discriminate.
    + rewrite (IHa m _ _ _ Ha) by lia. apply IHl; [exact H | lia].
    + rewrite (IHa m _ _ _ Ha) by lia. exact H.
Qed.

Lemma read_mono (n m : nat) (st : InStream) (r : InStream * Result Expression) :
  read n st = Some r -> (n <= m)%nat -> read m st = Some r.
Proof.
  unfold read. intros H Hle.
  destruct (next n st) as [[token st1]|] eqn:Hn; [|discriminate].
  rewrite (next_mono n m st _ Hn Hle).
  destruct (is_EOF_TOKEN token); [exact H|].
  exact (proj1 (read_ahead_list_mono n) m _ _ _ H Hle).
Qed.

(** A buffer that the regex maps to the empty token and to itself is
    never left: the loop of [next] produces nothing, whatever the budget. *)
Lemma next_stuck (fuel : nat) (src : list string) (l : string) :
  nonempty l = true -> TOKEN_REGEX_groups l = (EmptyString, l) ->
  next fuel (mkInStream src (Some l)) = None.
Proof.
  intros Hl Hg. induction fuel as [|n IH]; [reflexivity|].
  simpl. destruct l as [|c l']; [discriminate|]. simpl.
  rewrite Hg. simpl. exact IH.
Qed.

Lemma le_M_refl {A} (m : M A) : le_M m m.
Proof. intros h r H; exact H. Qed.

Lemma le_M_bind {A B} (m m' : M A) (k k' : A -> M B) :
  le_M m m' -> (forall a, le_M (k a) (k' a)) -> le_M (bind m k) (bind m' k').
Proof.
  intros Hm Hk h r. unfold bind.
  destruct (m h) as [[h1 [a|e]]|] eqn:E; [| |discriminate].
  - rewrite (Hm _ _ E). apply Hk.
  - rewrite (Hm _ _ E). trivial.
Qed.

Lemma le_M_mapM (g g' : Expression -> M Expression) (l : list Expression) :
  (forall x, le_M (g x) (g' x)) -> le_M (mapM g l) (mapM g' l).
Proof.
  intros Hg. induction l as [|x xs IH]; simpl; [apply le_M_refl|].
  apply le_M_bind; [apply Hg|]. intros v.
  apply le_M_bind; [exact IH|]. intros vs. apply le_M_refl.
Qed.

Lemma Environment_getitem_mono (n m : nat) (h : heap) (a : addr)
    (sym : Expression) (r : Result Expression) :
  Environment_getitem n h a sym = Some r -> (n <= m)%nat ->
  Environment_getitem m h a sym = Some r.
Proof.
  revert m a. induction n as [|n IH]; intros m a H Hle; [discriminate|].
  destruct m as [|m]; [lia|]. simpl in *.
  destruct (negb (isinstance_Symbol sym)); [exact H|].
  destruct (h !! a) as [fr|]; [|discriminate].
  destruct (env fr !! key sym); [exact H|].
  destruct (outer fr) as [o|]; [|exact H].
  apply IH; [exact H | lia].
Qed.

Lemma eval_mono (callables : nat -> list Expression -> Result Raw) (n m : nat)
    (exp : option Expression) (a : addr) :
  (n <= m)%nat -> le_M (eval_ callables n exp a) (eval_ callables m exp a).
Proof.
  revert m exp a. induction n as [|n IH]; intros m exp a Hle.
  { intros h r H; discriminate. }
  destruct m as [|m]; [lia|]. assert (Hnm : (n <= m)%nat) by lia.
  simpl. destruct (falsy exp); [apply le_M_refl|].
  destruct exp as [[t|v tk|items|ps body penv|c]|]; try apply le_M_refl.
  - intros h r H.
    destruct (Environment_getitem n h a (Symbol t)) as [x|] eqn:E; [|discriminate].
    rewrite (Environment_getitem_mono _ m _ _ _ _ E Hnm). exact H.
  - destruct items as [|first rest]; [apply le_M_refl|].
    destruct (eq_Symbol first DEFINE); [apply le_M_refl|].
    destruct (eq_Symbol first BEGIN).
    + apply le_M_bind; [apply le_M_refl|]. intros inner.
      apply le_M_bind; [|intros; apply le_M_refl].
      apply le_M_mapM. intros x. apply IH, Hnm.
    + apply le_M_bind; [apply IH, Hnm|]. intros proc.
      apply le_M_bind; [apply le_M_mapM; intros x; apply IH, Hnm|]. intros args.
      destruct proc; simpl; try apply le_M_refl.
      apply le_M_bind; [apply le_M_refl|]. intros fr. apply IH, Hnm.
Qed.

(** ** Frames that exist are not touched by evaluation in newer frames *)

Lemma keeps_ret {A} (b : nat) (Q : A -> Prop) (a : A) : Q a -> keeps b Q (ret a).
Proof.
  intros HQ h h' r _ H. injection H as <- <-.
  repeat split; [lia|]. intros v [= <-]. exact HQ.
Qed.

Lemma keeps_raise {A} (b : nat) (Q : A -> Prop) (e : Exn) : keeps b Q (raise e).
Proof.
  intros h h' r _ H. injection H as <- <-.
  repeat split; [lia|]. intros v [=].
Qed.

Lemma keeps_lift {A} (b : nat) (r : Result A) : keeps b (fun _ => True) (lift r).
Proof. intros h h' r' _ H. injection H as <- <-. repeat split; lia. Qed.

Lemma keeps_bind {A B} (b : nat) (Q : A -> Prop) (Q' : B -> Prop)
    (m : M A) (k : A -> M B) :
  keeps b Q m -> (forall a, Q a -> keeps b Q' (k a)) -> keeps b Q' (bind m k).
Proof.
  intros Hm Hk h h' r Hb. unfold bind.
  destruct (m h) as [[h1 [a|e]]|] eqn:E; [| |discriminate].
  - destruct (Hm _ _ _ Hb E) as (Hlen & Hsame & HQ). intros H.
    destruct (Hk a (HQ _ eq_refl) h1 h' r ltac:(lia) H) as (Hlen' & Hsame' & HQ').
    split; [lia|]. split; [|exact HQ'].
    intros x Hx. rewrite (Hsame' x Hx). apply Hsame, Hx.
  - intros [= <- <-]. destruct (Hm _ _ _ Hb E) as (Hlen & Hsame & _).
    repeat split; [exact Hlen | exact Hsame |]. intros v [=].
Qed.

Lemma keeps_mapM (b : nat) (g : Expression -> M Expression) (l : list Expression) :
  (forall x, keeps b (fun _ => True) (g x)) -> keeps b (fun _ => True) (mapM g l).
Proof.
  intros Hg. induction l as [|x xs IH]; simpl; [by apply keeps_ret|].
  eapply keeps_bind; [apply Hg|]. intros v _.
  eapply keeps_bind; [apply IH|]. intros vs _. by apply keeps_ret.
Qed.

Lemma keeps_new_Environment (b : nat) (params args : list Expression)
    (o : option addr) :
  keeps b (fun a => (b <= a)%nat) (new_Environment params args o).
Proof.
  intros h h' r Hb. unfold new_Environment.
  destruct (Environment_init params args o) as [fr|e]; intros [= <- <-].
  - rewrite length_app. simpl. split; [lia|]. split.
    + intros a Ha. apply lookup_app_l. lia.
    + intros v [= <-]. exact Hb.
  - repeat split; [lia|]. intros v [=].
Qed.

Lemma keeps_setitem (b : nat) (self : addr) (sym exp : Expression) :
  (b <= self)%nat -> keeps b (fun _ => True) (Environment_setitem self sym exp).
Proof.
  intros Hself h h' r Hb. unfold Environment_setitem.
  destruct (negb (isinstance_Symbol sym)).
  - intros [= <- <-]. repeat split; lia.
  - destruct (h !! self) as [fr|]; [|discriminate]. intros [= <- <-].
    rewrite length_insert. split; [lia|]. split; [|trivial].
    intros a Ha. apply list_lookup_insert_ne. lia.
Qed.

Lemma keeps_eval (callables : nat -> list Expression -> Result Raw)
    (fuel b : nat) (exp : option Expression) (a : addr) :
  (b <= a)%nat -> keeps b (fun _ => True) (eval_ callables fuel exp a).
Proof.
  revert exp a. induction fuel as [|n IH]; intros exp a Ha.
  { intros h h' r _ H; discriminate. }
  simpl. destruct (falsy exp); [apply keeps_raise|].
  destruct exp as [[t|v tk|items|ps body penv|c]|]; try apply keeps_raise.
  - intros h h' r Hb H.
    destruct (Environment_getitem n h a (Symbol t)); [|discriminate].
    injection H as <- <-. repeat split; lia.
  - by apply keeps_ret.
  - destruct items as [|first rest]; [apply keeps_raise|].
    destruct (eq_Symbol first DEFINE).
    { destruct rest as [|sym [|val [|? ?]]]; try apply keeps_raise.
      eapply keeps_bind; [apply keeps_setitem, Ha|]. intros _ _.
      by apply keeps_ret. }
    destruct (eq_Symbol first BEGIN).
    + eapply keeps_bind; [apply keeps_new_Environment|]. intros inner Hin.
      eapply keeps_bind; [apply keeps_mapM; intros x; apply IH, Hin|].
      intros vs _. apply keeps_lift.
    + eapply keeps_bind; [apply IH, Ha|]. intros proc _.
      eapply keeps_bind; [apply keeps_mapM; intros x; apply IH, Ha|].
      intros args _. destruct proc; simpl; try apply keeps_raise.
      * eapply keeps_bind; [apply keeps_new_Environment|]. intros fr Hfr.
        apply IH, Hfr.
      * eapply keeps_bind; [apply keeps_lift|]. intros raw _. apply keeps_lift.
Qed.

(** ** The special form [define] *)

(** C1. In every environment, [(define sym val_expr)] with a symbol [sym]
    returns [NIL] and writes [val_expr] itself, not evaluated, under
    [sym] into the current frame: the frame's other bindings, its [outer]
    reference and every other frame stay as they were, and a lookup of
    [sym] in that environment then returns [val_expr]. *)
Theorem C1_define_binds_unevaluated
    (callables : nat -> list Expression -> Result Raw) (fuel k : nat)
    (h : heap) (a : addr) (fr : Environment) (head sym : Token)
    (val : Expression) :
  h !! a = Some fr ->
  text head = "define" ->
  let h' := <[a := mkEnvironment (<[text sym := val]> (env fr)) (outer fr)]> h in
  eval_ callables (S fuel) (Some (List [Symbol head; Symbol sym; val])) a h
    = Some (h', Ok NIL)
  /\ Environment_getitem (S k) h' a (Symbol sym) = Some (Ok val)
  /\ (forall b, b <> a -> h' !! b = h !! b).
Proof.
  intros Hfr Hhead h'. split; [|split].
  - simpl. unfold eq_Symbol, DEFINE. rewrite Hhead. simpl.
    unfold bind, Environment_setitem. simpl. rewrite Hfr. reflexivity.
  - simpl. unfold h'. rewrite list_lookup_insert_eq by (eapply lookup_lt_Some, Hfr).
    simpl. rewrite lookup_insert_eq. reflexivity.
  - intros b Hb. unfold h'. apply list_lookup_insert_ne. congruence.
Qed.

Lemma C1_define_binds_unevaluated_witness :
  eval_ global_callables 1
    (Some (List [Symbol (Tok "define"); Symbol (Tok "x"); List []]))
    global_env global_heap
  = Some ([mkEnvironment (<["x" := List []]> {["+" := BuiltinProcedure 0]}) None],
          Ok NIL).
Proof.
  exact (proj1 (C1_define_binds_unevaluated global_callables 0 0 global_heap
                  global_env (mkEnvironment {["+" := BuiltinProcedure 0]} None)
                  (Tok "define") (Tok "x") (List []) eq_refl eq_refl)).
Defined.

(** ** Falsy expressions and numbers *)

(** C9. The first test of [eval_] rejects every falsy expression, the
    empty list and the absent expression among them, with a [ValueError]:
    the store is left as it is and the environment is not consulted (the
    result is the same for every environment reference). *)
Theorem C9_falsy_expression_rejected
    (callables : nat -> list Expression -> Result Raw) (fuel : nat)
    (exp : option Expression) (a : addr) (h : heap) :
  falsy exp = true ->
  eval_ callables (S fuel) exp a h
    = Some (h, Raise (ValueError "Can't evaluate nothing")).
Proof. intros H. simpl. rewrite H. reflexivity. Qed.

Lemma C9_falsy_expression_rejected_witness :
  eval_ global_callables 1 (Some (List [])) 7%nat []
    = Some ([], Raise (ValueError "Can't evaluate nothing"))
  /\ eval_ global_callables 1 None 7%nat []
    = Some ([], Raise (ValueError "Can't evaluate nothing")).
Proof.
  split.
  - exact (C9_falsy_expression_rejected global_callables 0
             (Some (List [])) 7%nat [] eq_refl).
  - exact (C9_falsy_expression_rejected global_callables 0 None 7%nat [] eq_refl).
Defined.

(** C3. A [Number] evaluates to itself exactly when its value is not
    zero; the number zero is falsy and is rejected by the first test of
    [eval_] with [ValueError].  In particular the text [0], read and
    evaluated in the global environment, raises. *)
Theorem C3_number_self_evaluating_except_zero :
  (forall (callables : nat -> list Expression -> Result Raw) (fuel : nat)
          (v : Z) (tk : string) (a : addr) (h : heap),
      eval_ callables (S fuel) (Some (Number v tk)) a h
      = Some (h, if v =? 0 then Raise (ValueError "Can't evaluate nothing")
                 else Ok (Number v tk)))
  /\ (forall fuel,
        read (S (S fuel)) (InStream_init ["0"])
        = Some (mkInStream [] (Some EmptyString), Ok (Number 0 "0")))
  /\ (forall fuel,
        eval_ global_callables (S fuel) (Some (Number 0 "0")) global_env global_heap
        = Some (global_heap, Raise (ValueError "Can't evaluate nothing"))).
Proof.
  split; [|split].
  - intros callables fuel v tk a h. simpl. destruct (v =? 0); reflexivity.
  - intros fuel. apply (read_mono 2); [reflexivity | lia].
  - intros fuel. apply (eval_mono _ 1); [lia | reflexivity].
Qed.

(** ** Tokenizer *)

Lemma re_star_rest (p : ascii -> bool) (s : string) :
  fst (re_star p (snd (re_star p s))) = EmptyString.
Proof.
  induction s as [|c r IH]; [reflexivity|]. simpl.
  destruct (p c) eqn:E.
  - destruct (re_star p r) as [m k]. exact IH.
  - simpl. rewrite E. reflexivity.
Qed.

Lemma next_comment (fuel : nat) (src : list string) (body : string) :
  next (S fuel) (mkInStream src (Some (String ";"%char body)))
  = Some (Tok (String ";"%char (fst (re_star re_dot body))),
          mkInStream src (Some EmptyString)).
Proof.
  simpl. unfold TOKEN_REGEX_groups. simpl.
  pose proof (re_star_rest re_dot body) as Hrest.
  destruct (re_star re_dot body) as [m k]. simpl in *. rewrite Hrest.
  reflexivity.
Qed.

(** C2. A buffered line that begins with a semicolon is not skipped: its
    text up to the end of the line is returned as a token, and [read]
    turns it into a [Symbol].  After a token, a comment that follows on
    the same line is returned as the next token.  A line that starts with
    a single quote makes the tokenizer loop without ever advancing: no
    budget is enough to obtain a token or the end of the input. *)
Theorem C2_comment_returned_as_token :
  (forall fuel src body,
      next (S fuel) (mkInStream src (Some (String ";"%char body)))
      = Some (Tok (String ";"%char (fst (re_star re_dot body))),
              mkInStream src (Some EmptyString)))
  /\ (forall fuel src body,
      read (S fuel) (mkInStream src (Some (String ";"%char body)))
      = Some (mkInStream src (Some EmptyString),
              Ok (Symbol (Tok (String ";"%char (fst (re_star re_dot body)))))))
  /\ (forall fuel,
      next (S fuel) (InStream_init ["x ; note" +:+ nl; "y"])
      = Some (Tok "x", mkInStream ["y"] (Some " ; note"))
      /\ next (S fuel) (mkInStream ["y"] (Some " ; note"))
         = Some (Tok "; note", mkInStream ["y"] (Some EmptyString)))
  /\ (forall fuel src, next fuel (mkInStream src (Some "'a")) = None).
Proof.
  split; [|split; [|split]].
  - exact next_comment.
  - intros fuel src body. unfold read. rewrite next_comment. reflexivity.
  - intros fuel. split; apply (next_mono 1); try reflexivity; lia.
  - intros fuel src. apply next_stuck; reflexivity.
Qed.

(** ** Reader *)


Lemma read_exhausted (fuel : nat) (l : option string) :
  line_falsy l = true ->
  read (S fuel) (mkInStream [] l)
  = Some (mkInStream [] (Some EmptyString), Ok EOF_SYMBOL).
Proof.
  intros Hl. unfold read. simpl. rewrite Hl. reflexivity.
Qed.




Lemma re_star_append (p : ascii -> bool) (m rest : string) :
  forallb p (list_ascii_of_string m) = true ->
  match rest with
  | EmptyString => True
  | String c _ => p c = false
  end ->
  re_star p (append m rest) = (m, rest).
Proof.
  intros Hm Hrest. induction m as [|c m IH]; simpl in *.
  - destruct rest as [|c r]; [reflexivity|]. simpl. rewrite Hrest. reflexivity.
  - apply andb_prop in Hm as [Hc Hm]. rewrite Hc, (IH Hm). reflexivity.
Qed.

Lemma TOKEN_REGEX_groups_bare (l : string) (c : ascii) (s tok k : string) :
  snd (re_star re_space l) = String c s ->
  re_bare c = true ->
  re_star re_bare (String c s) = (tok, k) ->
  TOKEN_REGEX_groups l = (tok, fst (re_star re_dot k)).
Proof.
  intros Hl Hc Hs. unfold TOKEN_REGEX_groups. rewrite Hl.
  unfold re_bare in Hc. apply negb_true_iff in Hc. cbv zeta in Hc.
  destruct (re_space c) eqn:Hsp; [discriminate|]. cbn [orb] in Hc.
  repeat (apply orb_false_elim in Hc as [Hc ?]).
  unfold is_paren, is_dquote, is_semicolon.
  repeat match goal with H : (_ =? _)%N = false |- _ => rewrite H; clear H end.
  cbn [orb]. rewrite Hs. reflexivity.
Qed.

Lemma next_token (fuel : nat) (src : list string) (l tok r : string) :
  nonempty l = true -> TOKEN_REGEX_groups l = (tok, r) -> nonempty tok = true ->
  next (S fuel) (mkInStream src (Some l)) = Some (Tok tok, mkInStream src (Some r)).
Proof.
  intros Hl Hg Ht. destruct l as [|c l]; [discriminate|].
  cbn [next line f line_falsy default from_option id nonempty negb].
  rewrite Hg, Ht. reflexivity.
Qed.

Lemma nonempty_append (ws s : string) :
  nonempty s = true -> nonempty (append ws s) = true.
Proof. intros H. destruct ws; [exact H | reflexivity]. Qed.

(** C10. When the buffered line holds, after optional whitespace, the
    text [#<eof-object>] ended by the end of the line or by a character
    that cannot be part of a bare token, the tokenizer returns that text
    as an ordinary token and [read] returns an ordinary [Symbol] holding
    it: the result is not [EOF_SYMBOL], although its text is the same,
    because [read] tests the token for identity with [EOF_TOKEN]. *)
Theorem C10_sentinel_text_read_as_symbol (fuel : nat) (src : list string)
    (ws rest : string) :
  forallb re_space (list_ascii_of_string ws) = true ->
  match rest with
  | EmptyString => True
  | String c _ => re_bare c = false
  end ->
  let st := mkInStream src (Some (append ws (append "#<eof-object>" rest))) in
  let st' := mkInStream src (Some (fst (re_star re_dot rest))) in
  next (S fuel) st = Some (Tok "#<eof-object>", st')
  /\ read (S fuel) st = Some (st', Ok (Symbol (Tok "#<eof-object>")))
  /\ Symbol (Tok "#<eof-object>") <> EOF_SYMBOL
  /\ eq_Symbol (Symbol (Tok "#<eof-object>")) EOF_TOKEN = true.
Proof.
  intros Hws H st st'.
  assert (Hn : next (S fuel) st = Some (Tok "#<eof-object>", st')).
  { unfold st, st'.
    pose proof (re_star_append re_bare "#<eof-object>" rest eq_refl H) as Hb.
    pose proof (re_star_append re_space ws (append "#<eof-object>" rest)
                  Hws eq_refl) as Hsp.
    apply next_token; [apply nonempty_append; reflexivity | | reflexivity].
    apply (TOKEN_REGEX_groups_bare _ "#" (append "<eof-object>" rest));
      [rewrite Hsp; reflexivity | reflexivity | exact Hb]. }
  split; [exact Hn|]. split; [|split; [discriminate | reflexivity]].
  unfold read. rewrite Hn. reflexivity.
Qed.

Lemma C10_sentinel_text_read_as_symbol_witness :
  read 1 (mkInStream [] (Some "  #<eof-object>)"))
  = Some (mkInStream [] (Some ")"), Ok (Symbol (Tok "#<eof-object>"))).
Proof.
  exact (proj1 (proj2 (C10_sentinel_text_read_as_symbol 0 [] "  " ")"
                         eq_refl eq_refl))).
Defined.




(** ** Builtin procedures *)




(** ** Construction of a frame *)

Lemma fold_put_other (l : list (Expression * Expression))
    (m : gmap string Expression) (k : string) :
  (forall q b, (q, b) ∈ l -> key q <> k) ->
  fold_left put l m !! k = m !! k.
Proof.
  revert m. induction l as [|[q b] l IH]; intros m Hl; [reflexivity|].
  simpl. rewrite IH.
  - unfold put. simpl. apply lookup_insert_ne. apply (Hl q b). left.
  - intros q' b' Hin. apply (Hl q' b'). right. exact Hin.
Qed.

Lemma fold_put_last (l : list (Expression * Expression))
    (m : gmap string Expression) (i : nat) (p a : Expression) :
  l !! i = Some (p, a) ->
  (forall j q b, (i < j)%nat -> l !! j = Some (q, b) -> key q <> key p) ->
  fold_left put l m !! key p = Some a.
Proof.
  revert m i. induction l as [|[q b] l IH]; intros m i Hi Hlater; [discriminate|].
  simpl. destruct i as [|i].
  - injection Hi as -> ->. rewrite fold_put_other.
    + unfold put. simpl. apply lookup_insert_eq.
    + intros q' b' Hin. apply list_elem_of_lookup in Hin as [j Hj].
      apply (Hlater (S j) q' b'); [lia | exact Hj].
  - apply (IH _ i); [exact Hi|].
    intros j q' b' Hij Hj. apply (Hlater (S j) q' b'); [lia | exact Hj].
Qed.

Lemma zip_extra_ignored (params args extra : list Expression) :
  (List.length params <= List.length args)%nat ->
  zip params (args ++ extra) = zip params args.
Proof.
  revert args. induction params as [|p ps IH]; intros args Hlen; [reflexivity|].
  destruct args as [|a args]; simpl in *; [lia|].
  f_equal. apply IH. lia.
Qed.

Lemma zip_lookup_params (params args : list Expression) (j : nat)
    (q b : Expression) :
  zip params args !! j = Some (q, b) ->
  params !! j = Some q /\ args !! j = Some b.
Proof.
  revert args j. induction params as [|p ps IH]; intros args j; [discriminate|].
  destruct args as [|a args]; [discriminate|].
  destruct j as [|j]; simpl; [intros [= -> ->]; auto | apply IH].
Qed.

Lemma zip_lookup_both (params args : list Expression) (i : nat)
    (p a : Expression) :
  params !! i = Some p -> args !! i = Some a ->
  zip params args !! i = Some (p, a).
Proof.
  revert args i. induction params as [|q ps IH]; intros args i; [discriminate|].
  destruct args as [|b args]; [destruct i; discriminate|].
  destruct i as [|i]; simpl; [intros [= ->] [= ->]; reflexivity | apply IH].
Qed.

(** C7 as stated fails on the lookup: a parameter left without argument
    is looked up in the enclosing frames and is found when one of them
    binds its name.  It also fails on the frame when a name is repeated:
    the second [x] below has no argument, and [x] is bound. *)
Lemma C7_unmatched_parameter_found :
  new_Environment [Symbol (Tok "x")] [] (Some 0%nat)
    [mkEnvironment {["x" := Number 1 "1"]} None]
  = Some ([mkEnvironment {["x" := Number 1 "1"]} None;
           mkEnvironment ∅ (Some 0%nat)], Ok 1%nat)
  /\ Environment_getitem 2
       [mkEnvironment {["x" := Number 1 "1"]} None; mkEnvironment ∅ (Some 0%nat)]
       1%nat (Symbol (Tok "x"))
     = Some (Ok (Number 1 "1"))
  /\ bind_params [Symbol (Tok "x"); Symbol (Tok "x")] [Number 7 "7"] !! "x"
     = Some (Number 7 "7").
Proof. repeat split. Qed.

(** C7, amended. A frame built from symbols [params] and from [args]
    pairs them by position, a later parameter of the same name
    overriding an earlier one.  Arguments beyond the number of
    parameters change nothing.  A parameter beyond the number of
    arguments whose name is not that of a paired parameter is absent from
    the frame; its lookup in the new frame is the lookup in the
    enclosing frame, and raises [ValueError] when there is none. *)
Theorem C7_frame_pairs_by_position (params args : list Expression)
    (o : option addr) :
  forallb isinstance_Symbol params = true ->
  let fr := mkEnvironment (bind_params params args) o in
  Environment_init params args o = Ok fr
  /\ (forall i p a,
        params !! i = Some p -> args !! i = Some a ->
        (forall j q, (i < j)%nat -> (j < List.length args)%nat ->
                     params !! j = Some q -> key q <> key p) ->
        env fr !! key p = Some a)
  /\ (forall extra,
        (List.length params <= List.length args)%nat ->
        Environment_init params (args ++ extra) o = Ok fr)
  /\ (forall i p,
        params !! i = Some p -> (List.length args <= i)%nat ->
        (forall j q, (j < List.length args)%nat -> params !! j = Some q ->
                     key q <> key p) ->
        env fr !! key p = None
        /\ forall (h : heap) n,
             Environment_getitem (S n) (h ++ [fr]) (List.length h) p
             = match o with
               | Some o' => Environment_getitem n (h ++ [fr]) o' p
               | None =>
                   Some (Raise (ValueError ("Undefined symbol: " +:+ key p)))
               end).
Proof.
  intros Hsym fr. unfold Environment_init. rewrite Hsym.
  split; [reflexivity|]. split; [|split].
  - intros i p a Hp Ha Hlater. simpl. unfold bind_params.
    apply (fold_put_last _ _ i); [apply zip_lookup_both; assumption|].
    intros j q b Hij Hj. apply zip_lookup_params in Hj as [Hq Hb].
    apply (Hlater j q); [exact Hij | eapply lookup_lt_Some, Hb | exact Hq].
  - intros extra Hlen. unfold fr, bind_params.
    rewrite zip_extra_ignored by exact Hlen. reflexivity.
  - intros i p Hp Hi Hnames.
    assert (Habs : bind_params params args !! key p = None).
    { unfold bind_params. rewrite fold_put_other; [apply lookup_empty|].
      intros q b Hin. apply list_elem_of_lookup in Hin as [j Hj].
      apply zip_lookup_params in Hj as [Hq Hb].
      apply (Hnames j q); [eapply lookup_lt_Some, Hb | exact Hq]. }
    split; [exact Habs|]. intros h n.
    assert (Hps : isinstance_Symbol p = true).
    { rewrite forallb_forall in Hsym. apply Hsym.
      apply list_elem_of_In, list_elem_of_lookup. eauto. }
    cbn [Environment_getitem]. rewrite Hps. cbn [negb].
    rewrite list_lookup_middle by reflexivity. cbn [env outer fr].
    rewrite Habs. reflexivity.
Qed.

Lemma C7_frame_pairs_by_position_witness :
  Environment_init [Symbol (Tok "x"); Symbol (Tok "y")] [Number 1 "1"] None
  = Ok (mkEnvironment
          (bind_params [Symbol (Tok "x"); Symbol (Tok "y")] [Number 1 "1"]) None).
Proof.
  exact (proj1 (C7_frame_pairs_by_position
                  [Symbol (Tok "x"); Symbol (Tok "y")] [Number 1 "1"] None
                  eq_refl)).
Defined.

(** ** The special form [begin] *)

Lemma mapM_snoc (g : Expression -> M Expression) (es : list Expression)
    (en : Expression) (h : heap) :
  mapM g (es ++ [en]) h
  = bind (mapM g es) (fun vs => bind (g en) (fun v => ret (vs ++ [v]))) h.
Proof.
  revert h. induction es as [|x xs IH]; intros h; simpl.
  - unfold bind, ret. destruct (g en h) as [[h1 [v|e]]|]; reflexivity.
  - unfold bind, ret in *. destruct (g x h) as [[h1 [v|e]]|]; try reflexivity.
    rewrite IH.
    destruct (mapM g xs h1) as [[h2 [vs|e]]|]; try reflexivity.
    destruct (g en h2) as [[h3 [w|e]]|]; reflexivity.
Qed.

Lemma Environment_getitem_agree (k : nat) (h h' : heap) (a : addr)
    (sym : Expression) :
  heap_closed h -> (a < List.length h)%nat ->
  (forall b, (b < List.length h)%nat -> h' !! b = h !! b) ->
  Environment_getitem k h' a sym = Environment_getitem k h a sym.
Proof.
  intros Hclosed Ha Hsame. revert a Ha.
  induction k as [|k IH]; intros a Ha; [reflexivity|]. simpl.
  destruct (negb (isinstance_Symbol sym)); [reflexivity|].
  rewrite (Hsame a Ha). destruct (h !! a) as [fr|] eqn:Hfr; [|reflexivity].
  destruct (env fr !! key sym); [reflexivity|].
  destruct (outer fr) as [o|] eqn:Ho; [|reflexivity].
  apply IH. exact (Hclosed a fr o Hfr Ho).
Qed.

(** C4. [(begin e1 ... en)] evaluated in an environment [a] creates an
    empty frame whose [outer] is [a], evaluates the elements from left
    to right in that frame, each on the store left by the one before,
    and
    - with no element, raises [IndexError];
    - when e1 ... e(n-1) evaluate to values and en evaluates to [v],
      returns [v], the first exception being passed on otherwise;
    - leaves every frame that existed before as it was, so that a
      [define] inside the form binds in the new frame and a later lookup
      from [a] finds what it found before. *)
Theorem C4_begin_child_environment
    (callables : nat -> list Expression -> Result Raw) (fuel : nat)
    (head : Token) (rest : list Expression) (a : addr) (h : heap) :
  text head = "begin" ->
  let inner := List.length h in
  let h1 := h ++ [mkEnvironment ∅ (Some a)] in
  let ev := fun x => eval_ callables fuel (Some x) inner in
  let result :=
    eval_ callables (S fuel) (Some (List (Symbol head :: rest))) a h in
  result = bind (mapM ev rest) (fun values => lift (last_value values)) h1
  /\ (rest = [] -> result = Some (h1, Raise IndexError))
  /\ (forall es en hk vs h2 v,
        rest = es ++ [en] ->
        mapM ev es h1 = Some (hk, Ok vs) ->
        ev en hk = Some (h2, Ok v) ->
        result = Some (h2, Ok v))
  /\ (forall h' r,
        result = Some (h', r) ->
        (List.length h < List.length h')%nat
        /\ (forall b, (b < List.length h)%nat -> h' !! b = h !! b)
        /\ (heap_closed h -> (a < List.length h)%nat ->
            forall k sym,
              Environment_getitem k h' a sym = Environment_getitem k h a sym)).
Proof.
  intros Hhead inner h1 ev result.
  assert (Hres : result
                 = bind (mapM ev rest) (fun values => lift (last_value values)) h1).
  { unfold result. simpl. unfold eq_Symbol, DEFINE, BEGIN. rewrite Hhead.
    simpl. reflexivity. }
  split; [exact Hres|]. split; [|split].
  - intros ->. rewrite Hres. reflexivity.
  - intros es en hk vs h2 v -> Hes Hen. rewrite Hres.
    unfold bind at 1. rewrite mapM_snoc. unfold bind at 1. rewrite Hes.
    unfold bind, ret. rewrite Hen. unfold lift, last_value.
    rewrite last_snoc. reflexivity.
  - intros h' r Hr. rewrite Hres in Hr.
    assert (Hkeeps : keeps inner (fun _ : Expression => True)
              (bind (mapM ev rest) (fun values => lift (last_value values)))).
    { eapply keeps_bind; [|intros vs _; apply keeps_lift].
      apply keeps_mapM. intros x. apply keeps_eval. reflexivity. }
    destruct (Hkeeps h1 h' r) as (Hlen & Hsame & _).
    { unfold h1, inner. rewrite length_app. lia. }
    { exact Hr. }
    assert (Hold : forall b, (b < List.length h)%nat -> h' !! b = h !! b).
    { intros b Hb. rewrite (Hsame b Hb). unfold h1. apply lookup_app_l, Hb. }
    split; [|split].
    + unfold h1 in Hlen. rewrite length_app in Hlen. simpl in Hlen. lia.
    + exact Hold.
    + intros Hclosed Ha k sym. apply Environment_getitem_agree; assumption.
Qed.

Lemma C4_begin_child_environment_witness :
  eval_ global_callables 5
    (Some (List [Symbol (Tok "begin");
                 List [Symbol (Tok "define"); Symbol (Tok "a"); Number 1 "1"];
                 List [Symbol (Tok "define"); Symbol (Tok "b"); Number 2 "2"];
                 List [Symbol (Tok "+"); Symbol (Tok "a"); Symbol (Tok "b")]]))
    global_env global_heap
  = Some ([mkEnvironment {["+" := BuiltinProcedure 0]} None;
           mkEnvironment (<["b" := Number 2 "2"]> {["a" := Number 1 "1"]})
             (Some global_env)],
          Ok (Number 3 "3")).
Proof.
  refine (proj1 (proj2 (proj2
            (C4_begin_child_environment global_callables 4 (Tok "begin")
               [List [Symbol (Tok "define"); Symbol (Tok "a"); Number 1 "1"];
                List [Symbol (Tok "define"); Symbol (Tok "b"); Number 2 "2"];
                List [Symbol (Tok "+"); Symbol (Tok "a"); Symbol (Tok "b")]]
               global_env global_heap eq_refl)))
            [List [Symbol (Tok "define"); Symbol (Tok "a"); Number 1 "1"];
             List [Symbol (Tok "define"); Symbol (Tok "b"); Number 2 "2"]]
            (List [Symbol (Tok "+"); Symbol (Tok "a"); Symbol (Tok "b")])
            _ [NIL; NIL] _ _ eq_refl _ _).
  - vm_compute. reflexivity.
  - vm_compute. reflexivity.
Defined.

(** * Further properties of the code *)

(** ** Environment: lookup and assignment *)

Lemma Environment_getitem_total (h : heap) (a k : nat) (sym : Expression) :
  heap_ordered h -> (a < List.length h)%nat ->
  isinstance_Symbol sym = true -> (a < k)%nat ->
  (exists v b fr,
      Environment_getitem k h a sym = Some (Ok v)
      /\ (b <= a)%nat /\ h !! b = Some fr /\ env fr !! key sym = Some v)
  \/ Environment_getitem k h a sym
     = Some (Raise (ValueError ("Undefined symbol: " +:+ key sym))).
Proof.
  intros Hord Ha Hsym. revert a Ha.
  induction k as [|k IH]; intros a Ha Hk; [lia|].
  cbn [Environment_getitem]. rewrite Hsym. cbn [negb].
  destruct (lookup_lt_is_Some_2 h a Ha) as [fr Hfr]. rewrite Hfr.
  destruct (env fr !! key sym) as [v|] eqn:Hv.
  { left. exists v, a, fr. auto. }
  destruct (outer fr) as [o|] eqn:Ho; [|right; reflexivity].
  pose proof (Hord a fr o Hfr Ho) as Hoa.
  destruct (IH o ltac:(lia) ltac:(lia)) as [(v & b & fr' & Hget & Hb & Hfr' & Hv')|Hget].
  - left. exists v, b, fr'. repeat split; try assumption. lia.
  - right. exact Hget.
Qed.

(** X1. In a store whose [outer] references all point to earlier frames,
    the lookup of a symbol from a frame [a] always ends within [a + 1]
    steps: it returns a value bound under that name in a frame no newer
    than [a], or raises [ValueError] naming the symbol; it raises nothing
    else. *)
Theorem X1_lookup_terminates (h : heap) (a k : nat) (sym : Expression) :
  heap_ordered h -> (a < List.length h)%nat ->
  isinstance_Symbol sym = true -> (a < k)%nat ->
  (exists v b fr,
      Environment_getitem k h a sym = Some (Ok v)
      /\ (b <= a)%nat /\ h !! b = Some fr /\ env fr !! key sym = Some v)
  \/ Environment_getitem k h a sym
     = Some (Raise (ValueError ("Undefined symbol: " +:+ key sym))).
Proof. apply Environment_getitem_total. Qed.

Lemma X1_lookup_terminates_witness :
  (exists v b fr,
      Environment_getitem 2 [mkEnvironment {["+" := BuiltinProcedure 0]} None;
                             mkEnvironment ∅ (Some 0%nat)] 1%nat (Symbol (Tok "+"))
      = Some (Ok v)
      /\ (b <= 1)%nat
      /\ [mkEnvironment {["+" := BuiltinProcedure 0]} None;
          mkEnvironment ∅ (Some 0%nat)] !! b = Some fr
      /\ env fr !! "+" = Some v)
  \/ Environment_getitem 2 [mkEnvironment {["+" := BuiltinProcedure 0]} None;
                            mkEnvironment ∅ (Some 0%nat)] 1%nat (Symbol (Tok "+"))
     = Some (Raise (ValueError "Undefined symbol: +")).
Proof.
  refine (X1_lookup_terminates
            [mkEnvironment {["+" := BuiltinProcedure 0]} None;
             mkEnvironment ∅ (Some 0%nat)] 1 2 (Symbol (Tok "+")) _ _ eq_refl _).
  - intros [|[|b]] fr o; simpl; intros [= <-]; simpl; intros [= <-]. lia.
  - simpl. lia.
  - lia.
Defined.

(** X2. After [self[sym] = exp] on a frame [a] with a symbol [sym]:
    the frame count and every other frame are as before; a lookup of
    [sym] from [a] returns [exp]; the lookup of a symbol of another name
    is unchanged from every frame; and, when [outer] references point to
    earlier frames, every frame created before [a] (its enclosing frames
    among them) sees no change for any symbol. *)
Theorem X2_setitem_effect (h h' : heap) (a : addr) (sym exp : Expression) :
  isinstance_Symbol sym = true ->
  Environment_setitem a sym exp h = Some (h', Ok tt) ->
  List.length h' = List.length h
  /\ (forall b, b <> a -> h' !! b = h !! b)
  /\ (forall k, Environment_getitem (S k) h' a sym = Some (Ok exp))
  /\ (forall k b other, key other <> key sym ->
        Environment_getitem k h' b other = Environment_getitem k h b other)
  /\ (heap_ordered h -> forall k b other, (b < a)%nat ->
        Environment_getitem k h' b other = Environment_getitem k h b other).
Proof.
  intros Hsym. unfold Environment_setitem. rewrite Hsym. cbn [negb].
  destruct (h !! a) as [fr|] eqn:Hfr; [|discriminate]. intros [= <-].
  assert (Ha : (a < List.length h)%nat) by (eapply lookup_lt_Some, Hfr).
  split; [apply length_insert|].
  split; [intros b Hb; apply list_lookup_insert_ne; congruence|].
  split; [|split].
  - intros k. cbn [Environment_getitem]. rewrite Hsym. cbn [negb].
    rewrite list_lookup_insert_eq by exact Ha. cbn [env].
    rewrite lookup_insert_eq. reflexivity.
  - intros k b other Hne. revert b. induction k as [|k IH]; intros b; [reflexivity|].
    cbn [Environment_getitem]. destruct (negb (isinstance_Symbol other)); [reflexivity|].
    destruct (decide (b = a)) as [->|Hb].
    + rewrite list_lookup_insert_eq by exact Ha. rewrite Hfr. cbn [env outer].
      rewrite lookup_insert_ne by congruence.
      destruct (env fr !! key other); [reflexivity|].
      destruct (outer fr); [apply IH | reflexivity].
    + rewrite list_lookup_insert_ne by congruence.
      destruct (h !! b) as [fb|]; [|reflexivity].
      destruct (env fb !! key other); [reflexivity|].
      destruct (outer fb); [apply IH | reflexivity].
  - intros Hord k. induction k as [|k IH]; intros b other Hb; [reflexivity|].
    cbn [Environment_getitem]. destruct (negb (isinstance_Symbol other)); [reflexivity|].
    rewrite list_lookup_insert_ne by lia.
    destruct (h !! b) as [fb|] eqn:Hfb; [|reflexivity].
    destruct (env fb !! key other); [reflexivity|].
    destruct (outer fb) as [o|] eqn:Ho; [|reflexivity].
    apply IH. pose proof (Hord b fb o Hfb Ho). lia.
Qed.

Lemma X2_setitem_effect_witness :
  Environment_getitem 1
    [mkEnvironment (<["x" := Number 5 "5"]> {["+" := BuiltinProcedure 0]}) None]
    0%nat (Symbol (Tok "x"))
  = Some (Ok (Number 5 "5")).
Proof.
  exact (proj1 (proj2 (proj2
           (X2_setitem_effect global_heap _ 0%nat (Symbol (Tok "x"))
              (Number 5 "5") eq_refl eq_refl))) 0%nat).
Defined.

(** ** Environment.update *)

Lemma insert_same_frame (h : heap) (a : addr) (fr : Environment) :
  h !! a = Some fr -> <[a := mkEnvironment (env fr) (outer fr)]> h = h.
Proof. intros H. destruct fr. apply list_insert_id, H. Qed.

Lemma Environment_update_run (mappings : list (Expression * Expression))
    (a : addr) (h : heap) (fr : Environment) :
  h !! a = Some fr ->
  Environment_update a mappings h
  = match list_find (fun pa => isinstance_Symbol pa.1 = false) mappings with
    | None =>
        Some (<[a := mkEnvironment (fold_left put mappings (env fr)) (outer fr)]> h,
              Ok tt)
    | Some (i, _) =>
        Some (<[a := mkEnvironment (fold_left put (take i mappings) (env fr))
                       (outer fr)]> h,
              Raise TypeError)
    end.
Proof.
  revert h fr. induction mappings as [|[sym exp] rest IH]; intros h fr Hfr.
  - cbn. rewrite insert_same_frame by exact Hfr. reflexivity.
  - cbn [Environment_update list_find]. cbn [fst].
    destruct (isinstance_Symbol sym) eqn:Hsym; cbn [negb].
    + rewrite decide_False by discriminate.
      unfold bind, Environment_setitem. rewrite Hsym. cbn [negb]. rewrite Hfr.
      assert (Ha : (a < List.length h)%nat) by (eapply lookup_lt_Some, Hfr).
      rewrite (IH _ (mkEnvironment (<[key sym := exp]> (env fr)) (outer fr)))
        by (apply list_lookup_insert_eq, Ha).
      cbn [env outer].
      destruct (list_find _ rest) as [[i x]|]; simpl;
        rewrite list_insert_insert_eq; reflexivity.
    + rewrite decide_True by reflexivity. cbn.
      rewrite insert_same_frame by exact Hfr. reflexivity.
Qed.

(** X3. [update] with a dictionary whose keys are all symbols writes
    every entry into the frame [a] and nothing else: each key is then
    bound to its value (for a name given twice, to the later value), a
    name that is not a key keeps its binding, and [outer] is kept. *)
Theorem X3_update_binds_all (mappings : list (Expression * Expression))
    (a : addr) (h : heap) (fr : Environment) :
  h !! a = Some fr ->
  forallb (fun pa => isinstance_Symbol pa.1) mappings = true ->
  let fr' := mkEnvironment (fold_left put mappings (env fr)) (outer fr) in
  Environment_update a mappings h = Some (<[a := fr']> h, Ok tt)
  /\ (forall i p v,
        mappings !! i = Some (p, v) ->
        (forall j q w, (i < j)%nat -> mappings !! j = Some (q, w) -> key q <> key p) ->
        env fr' !! key p = Some v)
  /\ (forall k, (forall q w, (q, w) ∈ mappings -> key q <> k) ->
        env fr' !! k = env fr !! k).
Proof.
  intros Hfr Hall fr'. split; [|split].
  - rewrite (Environment_update_run _ _ _ _ Hfr).
    destruct (list_find _ mappings) as [[i [q w]]|] eqn:Hfind; [|reflexivity].
    apply list_find_Some in Hfind as (Hi & Hq & _). cbn [fst] in Hq.
    rewrite forallb_forall in Hall.
    assert (Hin : In (q, w) mappings).
    { apply list_elem_of_In, list_elem_of_lookup. eauto. }
    apply Hall in Hin. cbn [fst] in Hin. congruence.
  - intros i p v Hi Hlater. cbn [env fr']. apply (fold_put_last _ _ i); assumption.
  - intros k Hk. cbn [env fr']. apply fold_put_other. exact Hk.
Qed.

Lemma X3_update_binds_all_witness :
  Environment_update 0 [(Symbol (Tok "x"), Number 1 "1"); (Symbol (Tok "y"), List [])]
    global_heap
  = Some ([mkEnvironment
             (fold_left put
                [(Symbol (Tok "x"), Number 1 "1"); (Symbol (Tok "y"), List [])]
                {["+" := BuiltinProcedure 0]}) None],
          Ok tt).
Proof.
  exact (proj1 (X3_update_binds_all
                  [(Symbol (Tok "x"), Number 1 "1"); (Symbol (Tok "y"), List [])]
                  0%nat global_heap
                  (mkEnvironment {["+" := BuiltinProcedure 0]} None)
                  eq_refl eq_refl)).
Defined.

(** X4. [update] does not roll back: when the key at position [i] is the
    first one that is not a symbol, [TypeError] is raised and the frame
    holds exactly the [i] entries before it, written over the previous
    bindings. *)
Theorem X4_update_stops_at_bad_key
    (pre post : list (Expression * Expression)) (bad v : Expression)
    (a : addr) (h : heap) (fr : Environment) :
  h !! a = Some fr ->
  forallb (fun pa => isinstance_Symbol pa.1) pre = true ->
  isinstance_Symbol bad = false ->
  Environment_update a (pre ++ (bad, v) :: post) h
  = Some (<[a := mkEnvironment (fold_left put pre (env fr)) (outer fr)]> h,
          Raise TypeError).
Proof.
  intros Hfr Hpre Hbad. rewrite (Environment_update_run _ _ _ _ Hfr).
  assert (Hfind : list_find (fun pa : Expression * Expression =>
                               isinstance_Symbol pa.1 = false)
                    (pre ++ (bad, v) :: post)
                  = Some (List.length pre, (bad, v))).
  { apply list_find_Some. split; [|split].
    - rewrite list_lookup_middle; reflexivity.
    - exact Hbad.
    - intros j [q w] Hj Hlt. rewrite lookup_app_l in Hj by exact Hlt.
      rewrite forallb_forall in Hpre. cbn [fst].
      assert (Hin : In (q, w) pre).
      { apply list_elem_of_In, list_elem_of_lookup. eauto. }
      apply Hpre in Hin. cbn [fst] in Hin. congruence. }
  rewrite Hfind. rewrite take_app_length. reflexivity.
Qed.

Lemma X4_update_stops_at_bad_key_witness :
  Environment_update 0
    ([(Symbol (Tok "x"), Number 1 "1")] ++ (Number 2 "2", Number 3 "3") :: [])
    global_heap
  = Some ([mkEnvironment (<["x" := Number 1 "1"]> {["+" := BuiltinProcedure 0]}) None],
          Raise TypeError).
Proof.
  exact (X4_update_stops_at_bad_key [(Symbol (Tok "x"), Number 1 "1")] []
           (Number 2 "2") (Number 3 "3") 0%nat global_heap
           (mkEnvironment {["+" := BuiltinProcedure 0]} None)
           eq_refl eq_refl eq_refl).
Defined.

(** ** Evaluation of programs without closures *)

Lemma esize_pos (e : Expression) : (1 <= esize e)%nat.
Proof. destruct e; simpl; lia. Qed.

Lemma list_sum_esize_cons (x : Expression) (xs : list Expression) :
  list_sum (map esize (x :: xs)) = (esize x + list_sum (map esize xs))%nat.
Proof. reflexivity. Qed.

Lemma esize_List_cons (x : Expression) (xs : list Expression) :
  esize (List (x :: xs)) = S (esize x + list_sum (map esize xs)).
Proof. reflexivity. Qed.

Lemma Atom_of_no_closure (raw : Raw) (v : Expression) :
  Atom_of raw = Ok v -> no_closure v = true.
Proof.
  destruct raw as [z|t|l|]; simpl; try discriminate.
  - intros [= <-]. reflexivity.
  - destruct (int_of_str (text t)); intros [= <-]; reflexivity.
Qed.

Lemma store_ok_setitem (h : heap) (a : addr) (fr : Environment) (k : string)
    (exp : Expression) :
  store_ok h -> h !! a = Some fr -> no_closure exp = true ->
  store_ok (<[a := mkEnvironment (<[k := exp]> (env fr)) (outer fr)]> h).
Proof.
  intros [Hord Hplain] Hfr Hexp.
  assert (Ha : (a < List.length h)%nat) by (eapply lookup_lt_Some, Hfr).
  split.
  - intros b fb o Hb Ho. destruct (decide (b = a)) as [->|Hne].
    + rewrite list_lookup_insert_eq in Hb by exact Ha. injection Hb as <-.
      exact (Hord a fr o Hfr Ho).
    + rewrite list_lookup_insert_ne in Hb by congruence. exact (Hord b fb o Hb Ho).
  - intros b fb k' v Hb Hv. destruct (decide (b = a)) as [->|Hne].
    + rewrite list_lookup_insert_eq in Hb by exact Ha. injection Hb as <-.
      cbn [env] in Hv. destruct (decide (k = k')) as [->|Hk].
      * rewrite lookup_insert_eq in Hv. injection Hv as <-. exact Hexp.
      * rewrite lookup_insert_ne in Hv by exact Hk. exact (Hplain a fr k' v Hfr Hv).
    + rewrite list_lookup_insert_ne in Hb by congruence.
      exact (Hplain b fb k' v Hb Hv).
Qed.

Lemma store_ok_new_frame (h : heap) (o : addr) :
  store_ok h -> (o < List.length h)%nat ->
  store_ok (h ++ [mkEnvironment ∅ (Some o)]).
Proof.
  intros [Hord Hplain] Ho. split.
  - intros b fb o' Hb Ho'. apply lookup_app_Some in Hb as [Hb|[Hlen Hb]].
    + exact (Hord b fb o' Hb Ho').
    + destruct (b - List.length h)%nat eqn:E; [|destruct n; discriminate].
      injection Hb as <-. cbn in Ho'. injection Ho' as <-. lia.
  - intros b fb k v Hb Hv. apply lookup_app_Some in Hb as [Hb|[Hlen Hb]].
    + exact (Hplain b fb k v Hb Hv).
    + destruct (b - List.length h)%nat eqn:E; [|destruct n; discriminate].
      injection Hb as <-. cbn in Hv. rewrite lookup_empty in Hv. discriminate.
Qed.

Lemma halts_now {A} (Q : A -> Prop) (bound : nat) (h : heap) (r : Result A) :
  store_ok h -> (1 <= bound)%nat -> (forall v, r = Ok v -> Q v) ->
  halts_within Q bound (lift r) h.
Proof.
  intros Hok Hb HQ. exists h, r. repeat split; try apply Hok; try lia. exact HQ.
Qed.

Section NoClosure.

Variable callables : nat -> list Expression -> Result Raw.
Variable n : nat.

(** The statement for one expression, at budget [n]. *)
Hypothesis eval_halts_n :
  forall e a h,
    no_closure e = true -> store_ok h -> (a < List.length h)%nat ->
    (esize e + List.length h < n)%nat ->
    halts_within (fun v => no_closure v = true) (esize e)
      (eval_ callables n (Some e) a) h.

Lemma mapM_halts (l : list Expression) (a : addr) (h : heap) :
  forallb no_closure l = true -> store_ok h -> (a < List.length h)%nat ->
  (list_sum (map esize l) + List.length h < n)%nat ->
  halts_within (fun vs => forallb no_closure vs = true)
    (S (list_sum (map esize l)))
    (mapM (fun x => eval_ callables n (Some x) a) l) h.
Proof.
  revert h. induction l as [|x xs IH]; intros h Hl Hok Ha Hfuel.
  { exists h, (Ok []). repeat split; try apply Hok; simpl; try lia.
    intros v [= <-]. reflexivity. }
  cbn [forallb] in Hl. apply andb_prop in Hl as [Hx Hxs].
  rewrite list_sum_esize_cons in Hfuel |- *.
  destruct (eval_halts_n x a h Hx Hok Ha ltac:(lia))
    as (h1 & r1 & E1 & Hle1 & Hlt1 & Hok1 & HQ1).
  unfold halts_within. cbn [mapM]. unfold bind at 1. rewrite E1.
  destruct r1 as [v|e].
  - destruct (IH h1 Hxs Hok1 ltac:(lia) ltac:(lia))
      as (h2 & r2 & E2 & Hle2 & Hlt2 & Hok2 & HQ2).
    unfold bind at 1. rewrite E2. destruct r2 as [vs|e].
    + exists h2, (Ok (v :: vs)). split; [reflexivity|].
      repeat split; try apply Hok2; try lia.
      intros w [= <-]. cbn [forallb]. rewrite (HQ1 v eq_refl), (HQ2 vs eq_refl).
      reflexivity.
    + exists h2, (Raise e). split; [reflexivity|].
      repeat split; try apply Hok2; try lia. intros w [=].
  - exists h1, (Raise e). split; [reflexivity|].
    repeat split; try apply Hok1; try lia. intros w [=].
Qed.

End NoClosure.

Lemma last_no_closure (vs : list Expression) (v : Expression) :
  forallb no_closure vs = true -> last_value vs = Ok v -> no_closure v = true.
Proof.
  unfold last_value. destruct (last vs) as [w|] eqn:E; [|discriminate].
  intros Hvs [= <-]. rewrite forallb_forall in Hvs. apply Hvs.
  apply list_elem_of_In. apply last_Some in E as [l' ->].
  apply elem_of_app. right. left.
Qed.

Lemma eval_halts (callables : nat -> list Expression -> Result Raw) (fuel : nat) :
  forall e a h,
    no_closure e = true -> store_ok h -> (a < List.length h)%nat ->
    (esize e + List.length h < fuel)%nat ->
    halts_within (fun v => no_closure v = true) (esize e)
      (eval_ callables fuel (Some e) a) h.
Proof.
  induction fuel as [|n IH]; intros e a h He Hok Ha Hfuel; [lia|].
  pose proof (esize_pos e) as Hpos.
  cbn [eval_ falsy]. destruct (negb (truthy e)).
  { apply (halts_now _ _ _ (Raise _)); [exact Hok | exact Hpos | intros v [=]]. }
  destruct e as [t|z tk|items|ps body penv|c].
  - (* Symbol *)
    unfold halts_within.
    destruct (Environment_getitem_total h a n (Symbol t) (proj1 Hok) Ha eq_refl
                ltac:(simpl in Hfuel; lia))
      as [(v & b & fr & Hget & _ & Hfr & Hv)|Hget]; rewrite Hget.
    + exists h, (Ok v). repeat split; try apply Hok; try lia.
      intros w [= <-]. exact (proj2 Hok b fr _ v Hfr Hv).
    + exists h, (Raise (ValueError ("Undefined symbol: " +:+ key (Symbol t)))).
      repeat split; try apply Hok; try lia. intros w [=].
  - (* Number *)
    apply (halts_now _ _ _ (Ok _)); [exact Hok | exact Hpos |].
    intros v [= <-]. reflexivity.
  - (* List *)
    destruct items as [|first rest].
    { apply (halts_now _ _ _ (Raise _)); [exact Hok | exact Hpos | intros v [=]]. }
    cbn [no_closure forallb] in He. apply andb_prop in He as [Hfirst Hrest].
    rewrite esize_List_cons in Hfuel |- *. pose proof (esize_pos first) as Hpf.
    destruct (eq_Symbol first DEFINE).
    { destruct rest as [|sym [|val [|x rest]]];
        try (apply (halts_now _ _ _ (Raise _)); [exact Hok | lia | intros v [=]]).
      unfold halts_within, bind, Environment_setitem, ret.
      destruct (negb (isinstance_Symbol sym)).
      { exists h, (Raise TypeError). repeat split; try apply Hok; try lia.
        intros v [=]. }
      destruct (lookup_lt_is_Some_2 h a Ha) as [fr Hfr]. rewrite Hfr.
      cbn [forallb] in Hrest. apply andb_prop in Hrest as [_ Hval].
      apply andb_prop in Hval as [Hval _].
      eexists _, (Ok NIL). split; [reflexivity|]. rewrite length_insert.
      repeat split; try lia;
        try apply (store_ok_setitem h a fr _ val Hok Hfr Hval).
      intros v [= <-]. reflexivity. }
    unfold halts_within.
    destruct (eq_Symbol first BEGIN).
    + unfold bind at 1. unfold new_Environment. cbn [Environment_init forallb].
      assert (Hok1 : store_ok (h ++ [mkEnvironment ∅ (Some a)]))
        by (apply store_ok_new_frame; assumption).
      change (bind_params [] []) with (∅ : gmap string Expression).
      destruct (mapM_halts callables n IH rest (List.length h)
                  (h ++ [mkEnvironment ∅ (Some a)]) Hrest Hok1
                  ltac:(rewrite length_app; simpl; lia)
                  ltac:(rewrite length_app; simpl; lia))
        as (h2 & r2 & E2 & Hle2 & Hlt2 & Hok2 & HQ2).
      rewrite length_app in Hle2, Hlt2. simpl in Hle2, Hlt2.
      unfold bind. rewrite E2. destruct r2 as [vs|e].
      * exists h2, (last_value vs). split; [reflexivity|].
        repeat split; try apply Hok2; try lia.
        intros v Hv. exact (last_no_closure vs v (HQ2 vs eq_refl) Hv).
      * exists h2, (Raise e). split; [reflexivity|].
        repeat split; try apply Hok2; try lia. intros v [=].
    + destruct (IH first a h Hfirst Hok Ha ltac:(lia))
        as (h1 & r1 & E1 & Hle1 & Hlt1 & Hok1 & HQ1).
      unfold bind at 1. rewrite E1. destruct r1 as [proc|e].
      2:{ exists h1, (Raise e). split; [reflexivity|].
          repeat split; try apply Hok1; try lia. intros v [=]. }
      destruct (mapM_halts callables n IH rest a h1 Hrest Hok1 ltac:(lia) ltac:(lia))
        as (h2 & r2 & E2 & Hle2 & Hlt2 & Hok2 & HQ2).
      unfold bind at 1. rewrite E2. destruct r2 as [args|e].
      2:{ exists h2, (Raise e). split; [reflexivity|].
          repeat split; try apply Hok2; try lia. intros v [=]. }
      pose proof (HQ1 proc eq_refl) as Hproc.
      destruct proc as [t|z tk|items|ps body penv|c]; try discriminate;
        try (exists h2, (Raise TypeError); split; [reflexivity|];
             repeat split; try apply Hok2; try lia; intros v [=]).
      cbn [apply_]. unfold bind, lift.
      destruct (callables c args) as [raw|e].
      * exists h2, (Atom_of raw). split; [reflexivity|].
        repeat split; try apply Hok2; try lia. apply Atom_of_no_closure.
      * exists h2, (Raise e). split; [reflexivity|].
        repeat split; try apply Hok2; try lia. intros v [=].
  - discriminate.
  - apply (halts_now _ _ _ (Raise _)); [exact Hok | exact Hpos | intros v [=]].
Qed.

(** X5. Evaluation of an expression without closures, in a store without
    closures whose [outer] references point to earlier frames, always
    ends: any budget above the size of the expression plus the number of
    frames gives a value or an exception.  It creates fewer frames than
    the expression has nodes, the store it leaves is again of that kind,
    and a value it returns holds no closure. *)
Theorem X5_eval_terminates_without_closures
    (callables : nat -> list Expression -> Result Raw) (fuel : nat)
    (e : Expression) (a : addr) (h : heap) :
  no_closure e = true -> heap_ordered h -> heap_plain h ->
  (a < List.length h)%nat -> (esize e + List.length h < fuel)%nat ->
  exists h' r,
    eval_ callables fuel (Some e) a h = Some (h', r)
    /\ (List.length h <= List.length h' < List.length h + esize e)%nat
    /\ heap_ordered h' /\ heap_plain h'
    /\ (forall v, r = Ok v -> no_closure v = true).
Proof.
  intros He Hord Hplain Ha Hfuel.
  destruct (eval_halts callables fuel e a h He (conj Hord Hplain) Ha Hfuel)
    as (h' & r & E & Hle & Hlt & [Hord' Hplain'] & HQ).
  exists h', r. repeat split; assumption.
Qed.

Lemma X5_eval_terminates_without_closures_witness :
  exists h' r,
    eval_ global_callables 6
      (Some (List [Symbol (Tok "+"); Number 1 "1"; Number 2 "2"]))
      global_env global_heap = Some (h', r)
    /\ (List.length global_heap <= List.length h'
        < List.length global_heap
          + esize (List [Symbol (Tok "+"); Number 1 "1"; Number 2 "2"]))%nat
    /\ heap_ordered h' /\ heap_plain h'
    /\ (forall v, r = Ok v -> no_closure v = true).
Proof.
  apply (X5_eval_terminates_without_closures global_callables 6
           (List [Symbol (Tok "+"); Number 1 "1"; Number 2 "2"])
           global_env global_heap).
  - reflexivity.
  - intros [|b] fr o; simpl; [intros [= <-]; simpl; discriminate | discriminate].
  - intros [|b] fr k v; simpl; [|discriminate]. intros [= <-]. simpl.
    intros Hv. apply lookup_singleton_Some in Hv as [_ <-]. reflexivity.
  - unfold global_env, global_heap. simpl. lia.
  - unfold global_heap. simpl. lia.
Defined.

(** ** What the reader returns *)

Lemma next_token_nonempty (fuel : nat) (st st' : InStream) (t : Token) :
  next fuel st = Some (t, st') -> nonempty (text t) = true.
Proof.
  revert st. induction fuel as [|n IH]; intros st; [discriminate|]. simpl.
  destruct (if line_falsy (line st) then readline (f st)
            else (default EmptyString (line st), f st)) as [l src].
  destruct (negb (nonempty l)); [intros [= <- _]; reflexivity|].
  destruct (TOKEN_REGEX_groups l) as [token rest].
  destruct (nonempty token) eqn:E; [intros [= <- _]; exact E | apply IH].
Qed.

Lemma read_ahead_list_shape (n : nat) :
  (forall token st st' e,
      nonempty (text token) = true ->
      read_ahead n token st = Some (st', Ok e) ->
      read_shape e = true /\ no_closure e = true) /\
  (forall L st st' e,
      forallb read_shape L = true -> forallb no_closure L = true ->
      read_list n L st = Some (st', Ok e) ->
      read_shape e = true /\ no_closure e = true).
Proof.
  induction n as [|n [IHa IHl]]; [split; intros; discriminate|].
  split.
  - intros token st st' e Htok. simpl.
    destruct (String.eqb (text token) "("); [apply IHl; reflexivity|].
    destruct (String.eqb (text token) ")"); [discriminate|].
    destruct (is_EOF_TOKEN token); [discriminate|]. simpl.
    destruct (int_of_str (text token)); intros [= _ <-]; simpl; auto.
  - intros L st st' e HL HL'. simpl.
    destruct (next n st) as [[token st1]|] eqn:Hn; [|discriminate].
    destruct (String.eqb (text token) ")").
    { intros [= _ <-]. simpl. auto. }
    destruct (read_ahead n token st1) as [[st2 [x|e']]|] eqn:Ha; try discriminate.
    destruct (IHa _ _ _ _ (next_token_nonempty _ _ _ _ Hn) Ha) as [Hx Hx'].
    apply IHl; rewrite forallb_app; simpl.
    + rewrite HL, Hx. reflexivity.
    + rewrite HL', Hx'. reflexivity.
Qed.

Lemma read_plain (fuel : nat) (st st' : InStream) (e : Expression) :
  read fuel st = Some (st', Ok e) ->
  read_shape e = true /\ no_closure e = true.
Proof.
  unfold read. destruct (next fuel st) as [[token st1]|] eqn:Hn; [|discriminate].
  destruct (is_EOF_TOKEN token); [intros [= _ <-]; auto|].
  apply (proj1 (read_ahead_list_shape fuel)).
  exact (next_token_nonempty _ _ _ _ Hn).
Qed.

(** X6. Whatever the input, an expression returned by [read] is built
    from symbols of non-empty text, numbers and lists only; it holds no
    procedure object. *)
Theorem X6_read_returns_plain_expression (fuel : nat) (st st' : InStream)
    (e : Expression) :
  read fuel st = Some (st', Ok e) ->
  read_shape e = true /\ no_closure e = true.
Proof. apply read_plain. Qed.

Lemma X6_read_returns_plain_expression_witness :
  read_shape (List [Symbol (Tok "a"); List []; Number 0 "0"]) = true
  /\ no_closure (List [Symbol (Tok "a"); List []; Number 0 "0"]) = true.
Proof.
  exact (X6_read_returns_plain_expression 6 (InStream_init ["(a () 0)"])
           (mkInStream [] (Some EmptyString))
           (List [Symbol (Tok "a"); List []; Number 0 "0"]) eq_refl).
Defined.

(** ** What the tokenizer returns *)

Lemma re_star_fst_all (p : ascii -> bool) (s : string) :
  forallb p (list_ascii_of_string (fst (re_star p s))) = true.
Proof.
  induction s as [|c r IH]; [reflexivity|]. simpl.
  destruct (p c) eqn:E; [|reflexivity].
  destruct (re_star p r) as [m k]. simpl in *. rewrite E, IH. reflexivity.
Qed.

Lemma re_star_all (p : ascii -> bool) (s : string) :
  forallb p (list_ascii_of_string s) = true -> re_star p s = (s, EmptyString).
Proof.
  induction s as [|c r IH]; [reflexivity|]. simpl.
  intros H. apply andb_prop in H as [Hc Hr]. rewrite Hc, (IH Hr). reflexivity.
Qed.

Lemma re_string_body_closed (n : nat) (s m k : string) :
  (String.length s <= n)%nat ->
  re_string_body s = Some (m, k) -> re_string_body m = Some (m, EmptyString).
Proof.
  revert s m k. induction n as [|n IH]; intros s m k Hlen.
  { destruct s; [discriminate | simpl in Hlen; lia]. }
  destruct s as [|c r]; [discriminate|]. simpl in Hlen. cbn [re_string_body].
  destruct (is_dquote c) eqn:Hq.
  { intros [= <- <-]. cbn [re_string_body]. rewrite Hq. reflexivity. }
  destruct (is_backslash c) eqn:Hb.
  - destruct r as [|d r']; [discriminate|]. simpl in Hlen.
    destruct (re_dot d) eqn:Hd; [|discriminate].
    destruct (re_string_body r') as [[m' k']|] eqn:Hr; [|discriminate].
    intros [= <- <-]. cbn [re_string_body]. rewrite Hq, Hb, Hd.
    rewrite (IH r' m' k' ltac:(lia) Hr). reflexivity.
  - destruct (re_string_body r) as [[m' k']|] eqn:Hr; [|discriminate].
    intros [= <- <-]. cbn [re_string_body]. rewrite Hq, Hb.
    rewrite (IH r m' k' ltac:(lia) Hr). reflexivity.
Qed.

Lemma code_ascii (c : ascii) (n : N) : code c = n -> c = ascii_of_N n.
Proof. intros <-. symmetry. apply ascii_N_embedding. Qed.

Lemma TOKEN_REGEX_groups_shape (l tok rest : string) :
  TOKEN_REGEX_groups l = (tok, rest) ->
  forallb re_dot (list_ascii_of_string rest) = true
  /\ (nonempty tok = true -> token_shape tok).
Proof.
  unfold TOKEN_REGEX_groups.
  destruct (snd (re_star re_space l)) as [|c r] eqn:Hs.
  { intros [= <- <-]. split; [reflexivity | discriminate]. }
  destruct (is_paren c) eqn:Hp.
  { intros [= <- <-]. split; [apply re_star_fst_all|]. intros _.
    unfold is_paren in Hp. apply orb_prop in Hp as [Hp|Hp];
      apply N.eqb_eq, code_ascii in Hp; subst c; [left | right; left]; reflexivity. }
  destruct (is_dquote c) eqn:Hq.
  { destruct (re_string_body r) as [[m k]|] eqn:Hb.
    - intros [= <- <-]. split; [apply re_star_fst_all|]. intros _.
      right; right; left. exists m. split.
      + apply N.eqb_eq, code_ascii in Hq. subst c. reflexivity.
      + exact (re_string_body_closed _ r m k (le_n _) Hb).
    - intros [= <- <-].
      split; [apply (re_star_fst_all re_dot (String c r)) | discriminate]. }
  destruct (is_semicolon c) eqn:Hsc.
  { pose proof (re_star_fst_all re_dot (String c r)) as Hall.
    destruct (re_star re_dot (String c r)) as [m k] eqn:Hm.
    intros [= <- <-]. split; [apply re_star_fst_all|]. intros _.
    right; right; right; left.
    apply N.eqb_eq, code_ascii in Hsc. subst c.
    simpl in Hm. destruct (re_star re_dot r) as [m' k'].
    injection Hm as <- <-. exists m'. split; [reflexivity|].
    simpl in Hall. exact Hall. }
  pose proof (re_star_fst_all re_bare (String c r)) as Hall.
  destruct (re_star re_bare (String c r)) as [m k].
  intros [= <- <-]. split; [apply re_star_fst_all|]. intros Hne.
  right; right; right; right. split; [exact Hne | exact Hall].
Qed.

(** X7. A token returned by [next] from the text of the input is never
    empty, and is one of: an opening or a closing parenthesis alone; a
    double-quoted string closed by its final quote; a semicolon and the
    rest of its line; or a run of characters none of which is whitespace,
    a parenthesis, a quote character, a comma or a semicolon.  What stays
    in the buffer holds no newline. *)
Theorem X7_token_shape (fuel : nat) (st st' : InStream) (s : string) :
  next fuel st = Some (Tok s, st') ->
  nonempty s = true /\ token_shape s
  /\ exists rest, line st' = Some rest
       /\ forallb re_dot (list_ascii_of_string rest) = true.
Proof.
  revert st. induction fuel as [|n IH]; intros st; [discriminate|]. simpl.
  destruct (if line_falsy (line st) then readline (f st)
            else (default EmptyString (line st), f st)) as [l src].
  destruct (negb (nonempty l)); [discriminate|].
  destruct (TOKEN_REGEX_groups l) as [token rest] eqn:Hg.
  destruct (TOKEN_REGEX_groups_shape _ _ _ Hg) as [Hrest Hshape].
  destruct (nonempty token) eqn:E; [|apply IH].
  intros [= <- <-]. split; [exact E|]. split; [exact (Hshape eq_refl)|].
  exists rest. split; [reflexivity | exact Hrest].
Qed.

Lemma X7_token_shape_witness :
  nonempty "ab" = true /\ token_shape "ab"
  /\ exists rest, line (mkInStream [] (Some " c)")) = Some rest
       /\ forallb re_dot (list_ascii_of_string rest) = true.
Proof.
  exact (X7_token_shape 1 (InStream_init ["ab c)" +:+ nl +:+ "x"])
           (mkInStream [] (Some " c)")) "ab" eq_refl).
Defined.

Lemma TOKEN_REGEX_groups_blank (l : string) :
  blank l = true -> TOKEN_REGEX_groups l = (EmptyString, EmptyString).
Proof.
  intros H. unfold TOKEN_REGEX_groups. rewrite (re_star_all _ _ H). reflexivity.
Qed.

Lemma next_blank_lines (src : list string) (fuel : nat) :
  Forall (fun l => nonempty l = true /\ blank l = true) src ->
  next (S (List.length src + fuel)) (mkInStream src (Some EmptyString))
  = Some (EOF_TOKEN, mkInStream [] (Some EmptyString)).
Proof.
  induction 1 as [|l src [Hne Hb] _ IH]; [reflexivity|].
  cbn [List.length Nat.add next line f line_falsy readline]. rewrite Hne.
  cbn [negb]. rewrite (TOKEN_REGEX_groups_blank l Hb). cbn [nonempty].
  exact IH.
Qed.

(** X8. Blank input is end of input: when the buffer is empty or holds
    whitespace only and every remaining line holds whitespace only, the
    tokenizer skips all of it, reports the end of the input after at most
    one turn of its loop per line plus two, and [read] returns
    [EOF_SYMBOL]. *)
Theorem X8_blank_input_is_eof (src : list string) (buf : option string)
    (fuel : nat) :
  Forall (fun l => nonempty l = true /\ blank l = true) src ->
  blank (default EmptyString buf) = true ->
  next (2 + List.length src + fuel) (mkInStream src buf)
  = Some (EOF_TOKEN, mkInStream [] (Some EmptyString))
  /\ read (2 + List.length src + fuel) (mkInStream src buf)
     = Some (mkInStream [] (Some EmptyString), Ok EOF_SYMBOL).
Proof.
  intros Hsrc Hbuf.
  assert (Hn : next (2 + List.length src + fuel) (mkInStream src buf)
               = Some (EOF_TOKEN, mkInStream [] (Some EmptyString))).
  { destruct (line_falsy buf) eqn:Hf.
    - apply (next_mono (S (List.length src + fuel))); [|lia].
      rewrite <- (next_blank_lines src fuel Hsrc).
      destruct buf as [[|c l]|]; try discriminate; [reflexivity|].
      destruct src; reflexivity.
    - destruct buf as [[|c l]|]; try discriminate.
      change (2 + List.length src + fuel)%nat
        with (S (S (List.length src + fuel))).
      cbn [next line f line_falsy default from_option id nonempty negb].
      cbn [default from_option id] in Hbuf.
      rewrite (TOKEN_REGEX_groups_blank _ Hbuf). cbn [nonempty].
      apply next_blank_lines, Hsrc. }
  split; [exact Hn|]. unfold read. rewrite Hn. reflexivity.
Qed.

Lemma X8_blank_input_is_eof_witness :
  read 4 (mkInStream [" " +:+ nl; nl] (Some "  "))
  = Some (mkInStream [] (Some EmptyString), Ok EOF_SYMBOL).
Proof.
  refine (proj2 (X8_blank_input_is_eof [" " +:+ nl; nl] (Some "  ") 0 _ eq_refl)).
  repeat constructor.
Defined.

Lemma re_star_fst_idem (p : ascii -> bool) (s : string) :
  re_star p (fst (re_star p s)) = (fst (re_star p s), EmptyString).
Proof. apply re_star_all, re_star_fst_all. Qed.

Lemma TOKEN_REGEX_groups_unmatched (l : string) (c : ascii) (r : string) :
  snd (re_star re_space l) = String c r -> re_unmatched c = true ->
  TOKEN_REGEX_groups l = (EmptyString, String c (fst (re_star re_dot r)))
  /\ re_space c = false.
Proof.
  intros Hl Hc. unfold TOKEN_REGEX_groups. rewrite Hl.
  unfold re_unmatched in Hc. cbv zeta in Hc.
  assert (Hcode : code c = 39%N \/ code c = 96%N \/ code c = 44%N).
  { apply orb_prop in Hc as [Hc|Hc]; [apply orb_prop in Hc as [Hc|Hc]|];
      apply N.eqb_eq in Hc; auto. }
  unfold is_paren, is_dquote, is_semicolon, re_space.
  cbn [re_star]. unfold re_bare, re_dot, re_space.
  destruct Hcode as [E|[E|E]]; rewrite E; cbn;
    destruct (re_star (fun c0 => negb (code c0 =? 10)%N) r);
    rewrite E; auto.
Qed.

(** X9. The tokenizer does not get past a single quote, a backquote or
    a comma: when one of them is the first character of the buffer after
    whitespace, [next] loops on the same buffer and returns neither a
    token nor the end of the input, whatever the budget; the same holds
    when the next line to be read starts that way. *)
Theorem X9_next_loops_on_unmatched_character (fuel : nat) (src : list string)
    (l : string) (c : ascii) (r : string) :
  snd (re_star re_space l) = String c r -> re_unmatched c = true ->
  next fuel (mkInStream src (Some l)) = None
  /\ next fuel (mkInStream (l :: src) None) = None.
Proof.
  intros Hl Hc.
  destruct (TOKEN_REGEX_groups_unmatched l c r Hl Hc) as [Hg Hsp].
  assert (Hne : nonempty l = true).
  { destruct l; [discriminate | reflexivity]. }
  assert (Hstuck : forall n,
             next n (mkInStream src (Some (String c (fst (re_star re_dot r))))) = None).
  { intros n. apply next_stuck; [reflexivity|].
    assert (Hl' : snd (re_star re_space (String c (fst (re_star re_dot r))))
                  = String c (fst (re_star re_dot r))).
    { cbn [re_star]. rewrite Hsp. reflexivity. }
    destruct (TOKEN_REGEX_groups_unmatched _ c _ Hl' Hc) as [Hg' _].
    rewrite Hg'. rewrite re_star_fst_idem. reflexivity. }
  destruct fuel as [|n]; [split; reflexivity|].
  split.
  - destruct l as [|c0 l0]; [discriminate|].
    cbn [next line f line_falsy default from_option id nonempty negb].
    rewrite Hg. cbn [nonempty]. apply Hstuck.
  - cbn [next line f line_falsy readline]. rewrite Hne. cbn [negb].
    rewrite Hg. cbn [nonempty]. apply Hstuck.
Qed.

Lemma X9_next_loops_on_unmatched_character_witness :
  next 1000 (mkInStream [] (Some "  ,x y")) = None
  /\ next 1000 (mkInStream ["  ,x y"] None) = None.
Proof.
  exact (X9_next_loops_on_unmatched_character 1000 [] "  ,x y" ","%char "x y"
           eq_refl eq_refl).
Defined.

(** ** Numbers and their text *)







(** ** Errors and order of evaluation in [eval_] *)

(** X11. A malformed [define] changes nothing: with a number of
    operands other than two it raises [AssertionError], and with two
    operands the first of which is not a symbol it raises [TypeError];
    in both cases the store is left as it was and no operand is
    evaluated. *)
Theorem X11_define_malformed
    (callables : nat -> list Expression -> Result Raw) (fuel : nat)
    (head : Token) (rest : list Expression) (a : addr) (h : heap) :
  text head = "define" ->
  (List.length rest <> 2%nat ->
   eval_ callables (S fuel) (Some (List (Symbol head :: rest))) a h
   = Some (h, Raise AssertionError))
  /\ (forall sym val,
        rest = [sym; val] -> isinstance_Symbol sym = false ->
        eval_ callables (S fuel) (Some (List (Symbol head :: rest))) a h
        = Some (h, Raise TypeError)).
Proof.
  intros Hhead. split.
  - intros Hlen. simpl. unfold eq_Symbol, DEFINE. rewrite Hhead. simpl.
    destruct rest as [|x [|y [|z rest]]]; try reflexivity. simpl in Hlen. lia.
  - intros sym val -> Hsym. simpl. unfold eq_Symbol, DEFINE. rewrite Hhead. simpl.
    unfold bind, Environment_setitem. rewrite Hsym. reflexivity.
Qed.

Lemma X11_define_malformed_witness :
  eval_ global_callables 1
    (Some (List [Symbol (Tok "define"); Symbol (Tok "x")])) global_env global_heap
  = Some (global_heap, Raise AssertionError)
  /\ eval_ global_callables 1
       (Some (List [Symbol (Tok "define"); List [Symbol (Tok "f")]; Number 1 "1"]))
       global_env global_heap
     = Some (global_heap, Raise TypeError).
Proof.
  split.
  - refine (proj1 (X11_define_malformed global_callables 0 (Tok "define")
                     [Symbol (Tok "x")] global_env global_heap eq_refl) _).
    simpl. lia.
  - exact (proj2 (X11_define_malformed global_callables 0 (Tok "define")
                    [List [Symbol (Tok "f")]; Number 1 "1"] global_env global_heap
                    eq_refl) _ _ eq_refl eq_refl).
Defined.

(** X12. In an application the operator is evaluated first, then the
    operands from left to right, each on the store left by the previous
    step.  An exception of the operator is raised without any operand
    being evaluated; an exception of an operand is raised without the
    operator being applied; and when the operator's value is a symbol, a
    number or a list, [TypeError] is raised after all operands have been
    evaluated, their effects on the store being kept. *)
Theorem X12_application_order
    (callables : nat -> list Expression -> Result Raw) (n : nat)
    (first : Expression) (rest : list Expression) (a : addr) (h : heap) :
  eq_Symbol first DEFINE = false -> eq_Symbol first BEGIN = false ->
  let whole := eval_ callables (S n) (Some (List (first :: rest))) a h in
  let operands := mapM (fun x => eval_ callables n (Some x) a) rest in
  (forall h1 e,
      eval_ callables n (Some first) a h = Some (h1, Raise e) ->
      whole = Some (h1, Raise e))
  /\ (forall h1 proc h2 e,
        eval_ callables n (Some first) a h = Some (h1, Ok proc) ->
        operands h1 = Some (h2, Raise e) ->
        whole = Some (h2, Raise e))
  /\ (forall h1 proc h2 args,
        eval_ callables n (Some first) a h = Some (h1, Ok proc) ->
        operands h1 = Some (h2, Ok args) ->
        match proc with
        | Procedure _ _ _ | BuiltinProcedure _ => False
        | _ => True
        end ->
        whole = Some (h2, Raise TypeError)).
Proof.
  intros Hd Hb whole operands.
  assert (Hw : whole
               = bind (eval_ callables n (Some first) a)
                   (fun proc => bind operands
                      (fun args => apply_ callables (eval_ callables n) proc args)) h).
  { unfold whole. cbn [eval_ falsy truthy negb]. rewrite Hd, Hb. reflexivity. }
  split; [|split].
  - intros h1 e E. rewrite Hw. unfold bind. rewrite E. reflexivity.
  - intros h1 proc h2 e E1 E2. rewrite Hw. unfold bind at 1. rewrite E1.
    unfold bind. rewrite E2. reflexivity.
  - intros h1 proc h2 args E1 E2 Hproc. rewrite Hw. unfold bind at 1. rewrite E1.
    unfold bind at 1. rewrite E2. destruct proc; try contradiction; reflexivity.
Qed.

Lemma X12_application_order_witness :
  eval_ global_callables 2
    (Some (List [Number 1 "1"; Number 2 "2"])) global_env global_heap
  = Some (global_heap, Raise TypeError).
Proof.
  exact (proj2 (proj2 (X12_application_order global_callables 1 (Number 1 "1")
                         [Number 2 "2"] global_env global_heap eq_refl eq_refl))
           global_heap (Number 1 "1") global_heap [Number 2 "2"]
           eq_refl eq_refl I).
Defined.

(** ** Procedures *)

(** X13. Calling a procedure creates one frame whose [outer] is the
    environment the procedure holds, whatever environment the call is
    made from.  When the body is a parameter paired with an argument (and
    not overridden by a later parameter of the same name), the call
    returns that argument.  When the body is a symbol that is not bound
    in the new frame, the call returns what the lookup from the held
    environment returns in the store at the time of the call, so a
    binding added to that environment after the procedure was created is
    seen. *)
Theorem X13_procedure_call
    (callables : nat -> list Expression -> Result Raw) (n : nat)
    (params args : list Expression) (penv : addr) (h : heap) :
  forallb isinstance_Symbol params = true ->
  let fr := mkEnvironment (bind_params params args) (Some penv) in
  let call body :=
    apply_ callables (eval_ callables (S (S (S n)))) (Procedure params body penv)
      args h in
  (forall i p v,
      params !! i = Some p -> args !! i = Some v -> truthy p = true ->
      (forall j q, (i < j)%nat -> (j < List.length args)%nat ->
                   params !! j = Some q -> key q <> key p) ->
      call p = Some (h ++ [fr], Ok v))
  /\ (forall t,
        nonempty (text t) = true ->
        bind_params params args !! text t = None ->
        call (Symbol t)
        = match Environment_getitem (S n) (h ++ [fr]) penv (Symbol t) with
          | Some r => Some (h ++ [fr], r)
          | None => None
          end)
  /\ (forall t v h0,
        nonempty (text t) = true ->
        bind_params params args !! text t = None ->
        Environment_setitem penv (Symbol t) v h0 = Some (h, Ok tt) ->
        call (Symbol t) = Some (h ++ [fr], Ok v)).
Proof.
  intros Hsym fr call.
  assert (Hcall : forall body,
             call body = eval_ callables (S (S (S n))) (Some body) (List.length h)
                           (h ++ [fr])).
  { intros body. unfold call, apply_, bind, new_Environment, Environment_init.
    rewrite Hsym. reflexivity. }
  assert (Hfree : forall t,
             nonempty (text t) = true ->
             bind_params params args !! text t = None ->
             call (Symbol t)
             = match Environment_getitem (S n) (h ++ [fr]) penv (Symbol t) with
               | Some r => Some (h ++ [fr], r)
               | None => None
               end).
  { intros t Ht Hfree. rewrite Hcall. cbn [eval_ falsy truthy].
    rewrite Ht. cbn [negb Environment_getitem isinstance_Symbol].
    rewrite list_lookup_middle by reflexivity. cbn [env outer fr key].
    rewrite Hfree. reflexivity. }
  split; [|split; [exact Hfree|]].
  - intros i p v Hp Hv Htruthy Hlater. rewrite Hcall.
    assert (Hps : isinstance_Symbol p = true).
    { rewrite forallb_forall in Hsym. apply Hsym.
      apply list_elem_of_In, list_elem_of_lookup. eauto. }
    destruct p as [t| | | |]; try discriminate.
    cbn [eval_ falsy]. rewrite Htruthy.
    cbn [negb Environment_getitem isinstance_Symbol].
    rewrite list_lookup_middle by reflexivity. cbn [env fr].
    assert (Hb : bind_params params args !! key (Symbol t) = Some v).
    { unfold bind_params. apply (fold_put_last _ _ i);
        [apply zip_lookup_both; assumption|].
      intros j q b Hij Hj. apply zip_lookup_params in Hj as [Hq Hb].
      apply (Hlater j q); [exact Hij | eapply lookup_lt_Some, Hb | exact Hq]. }
    rewrite Hb. reflexivity.
  - intros t v h0 Ht Hfree' Hset. rewrite (Hfree t Ht Hfree').
    unfold Environment_setitem in Hset. cbn [isinstance_Symbol negb] in Hset.
    destruct (h0 !! penv) as [f0|] eqn:Hf0; [|discriminate].
    injection Hset as <-.
    assert (Hp : (penv < List.length h0)%nat) by (eapply lookup_lt_Some, Hf0).
    cbn [Environment_getitem isinstance_Symbol negb].
    rewrite lookup_app_l by (rewrite length_insert; exact Hp).
    rewrite list_lookup_insert_eq by exact Hp. cbn [env key].
    rewrite lookup_insert_eq. reflexivity.
Qed.

Lemma X13_procedure_call_witness :
  apply_ global_callables (eval_ global_callables 3)
    (Procedure [Symbol (Tok "x"); Symbol (Tok "y")] (Symbol (Tok "y")) 0%nat)
    [Number 1 "1"; Number 0 "0"] global_heap
  = Some (global_heap
          ++ [mkEnvironment
                (bind_params [Symbol (Tok "x"); Symbol (Tok "y")]
                   [Number 1 "1"; Number 0 "0"]) (Some 0%nat)],
          Ok (Number 0 "0")).
Proof.
  refine (proj1 (X13_procedure_call global_callables 0
                   [Symbol (Tok "x"); Symbol (Tok "y")]
                   [Number 1 "1"; Number 0 "0"] 0%nat global_heap eq_refl)
            1%nat (Symbol (Tok "y")) (Number 0 "0") eq_refl eq_refl eq_refl _).
  intros [|[|j]] q; simpl; intros; try lia; discriminate.
Defined.

(** ** Addition in the global environment *)



(** ** The read-eval loop *)

(** X15. The loop never ends by itself.  Once the input is exhausted,
    every turn reads [EOF_SYMBOL], evaluates it as an ordinary symbol and
    prints the outcome of looking up its name from the global environment;
    the stream and the store are left as they are, so all later turns
    print the same.  With the initial global environment that outcome is
    the [ValueError] for the undefined symbol [#<eof-object>]. *)
Theorem X15_repl_at_end_of_input
    (callables : nat -> list Expression -> Result Raw) (n turns : nat)
    (h : heap) (buf : option string) (r : Result Expression) :
  line_falsy buf = true ->
  Environment_getitem n h global_env EOF_SYMBOL = Some r ->
  repl_turn callables (S n) (mkInStream [] buf) h
  = Some (mkInStream [] (Some EmptyString), h, r)
  /\ repl callables (S n) turns (mkInStream [] (Some EmptyString)) h
     = Some (replicate turns r, mkInStream [] (Some EmptyString), h).
Proof.
  intros Hbuf Hget.
  assert (Hturn : forall b, line_falsy b = true ->
            repl_turn callables (S n) (mkInStream [] b) h
            = Some (mkInStream [] (Some EmptyString), h, r)).
  { intros b Hb. unfold repl_turn. rewrite (read_exhausted n b Hb).
    cbn [eval_ falsy truthy EOF_SYMBOL text nonempty negb].
    unfold EOF_SYMBOL in Hget. rewrite Hget. reflexivity. }
  split; [exact (Hturn buf Hbuf)|].
  induction turns as [|k IH]; [reflexivity|].
  cbn [repl replicate]. rewrite (Hturn (Some EmptyString) eq_refl), IH. reflexivity.
Qed.

Lemma X15_repl_at_end_of_input_witness :
  repl global_callables 2 3 (mkInStream [] (Some EmptyString)) global_heap
  = Some (replicate 3 (Raise (ValueError "Undefined symbol: #<eof-object>")),
          mkInStream [] (Some EmptyString), global_heap).
Proof.
  exact (proj2 (X15_repl_at_end_of_input global_callables 1 3 global_heap None
                  (Raise (ValueError "Undefined symbol: #<eof-object>"))
                  eq_refl eq_refl)).
Defined.

(** X16. A top-level [define] lasts across turns of the loop: when one
    turn reads [(define sym val)] and the next turn reads [sym], the
    first prints [NIL] and the second prints [val], the expression as it
    was read. *)
Theorem X16_repl_define_persists
    (callables : nat -> list Expression -> Result Raw) (fuel : nat)
    (st st1 st2 : InStream) (h : heap) (fr : Environment)
    (head sym : Token) (val : Expression) :
  h !! global_env = Some fr ->
  text head = "define" -> nonempty (text sym) = true ->
  read (S (S fuel)) st = Some (st1, Ok (List [Symbol head; Symbol sym; val])) ->
  read (S (S fuel)) st1 = Some (st2, Ok (Symbol sym)) ->
  repl callables (S (S fuel)) 2 st h
  = Some ([Ok NIL; Ok val], st2,
          <[global_env := mkEnvironment (<[text sym := val]> (env fr)) (outer fr)]> h).
Proof.
  intros Hfr Hhead Hsym Hr1 Hr2.
  assert (Hg : (global_env < List.length h)%nat) by (eapply lookup_lt_Some, Hfr).
  cbn [repl]. unfold repl_turn at 1. rewrite Hr1.
  cbn [eval_ falsy truthy negb]. unfold eq_Symbol at 1, DEFINE. rewrite Hhead.
  cbn [text String.eqb Ascii.eqb Bool.eqb]. unfold bind, Environment_setitem.
  cbn [isinstance_Symbol negb]. rewrite Hfr. cbn [ret key].
  unfold repl_turn. rewrite Hr2. cbn [eval_ falsy truthy]. rewrite Hsym.
  cbn [negb Environment_getitem isinstance_Symbol].
  rewrite list_lookup_insert_eq by exact Hg. cbn [env key].
  rewrite lookup_insert_eq. reflexivity.
Qed.

Lemma X16_repl_define_persists_witness :
  repl global_callables 12 2 (InStream_init ["(define x (1 2)) x"]) global_heap
  = Some ([Ok NIL; Ok (List [Number 1 "1"; Number 2 "2"])],
          mkInStream [] (Some EmptyString),
          [mkEnvironment (<["x" := List [Number 1 "1"; Number 2 "2"]]>
                            {["+" := BuiltinProcedure 0]}) None]).
Proof.
  exact (X16_repl_define_persists global_callables 10
           (InStream_init ["(define x (1 2)) x"])
           (mkInStream [] (Some " x")) (mkInStream [] (Some EmptyString))
           global_heap (mkEnvironment {["+" := BuiltinProcedure 0]} None)
           (Tok "define") (Tok "x") (List [Number 1 "1"; Number 2 "2"])
           eq_refl eq_refl eq_refl eq_refl eq_refl).
Defined.

(** X17. A turn of the loop ends whenever its [read] ends, provided the
    store holds no closure and its [outer] references point to earlier
    frames (as in the initial global environment): the evaluation of what
    was read always produces a value or an exception, and the store it
    leaves is of the same kind, so the property carries over to the next
    turn. *)
Theorem X17_repl_turn_ends
    (callables : nat -> list Expression -> Result Raw) (fuel : nat)
    (st st' : InStream) (r0 : Result Expression) (h : heap) :
  read fuel st = Some (st', r0) ->
  heap_ordered h -> heap_plain h -> (global_env < List.length h)%nat ->
  exists fuel' h' r,
    repl_turn callables fuel' st h = Some (st', h', r)
    /\ heap_ordered h' /\ heap_plain h'
    /\ (global_env < List.length h')%nat.
Proof.
  intros Hread Hord Hplain Hg. destruct r0 as [e|ex].
  - destruct (read_plain fuel st st' e Hread) as [_ He].
    set (fuel' := (fuel + S (esize e + List.length h))%nat).
    destruct (eval_halts callables fuel' e global_env h He (conj Hord Hplain) Hg
                ltac:(unfold fuel'; lia))
      as (h' & r & E & Hle & _ & [Hord' Hplain'] & _).
    exists fuel', h', r. unfold repl_turn.
    rewrite (read_mono fuel fuel' st _ Hread) by (unfold fuel'; lia).
    rewrite E. repeat split; try assumption. lia.
  - exists fuel, h, (Raise ex). unfold repl_turn. rewrite Hread.
    repeat split; assumption.
Qed.

Lemma X17_repl_turn_ends_witness :
  exists fuel' h' r,
    repl_turn global_callables fuel' (InStream_init ["x"]) global_heap
    = Some (mkInStream [] (Some EmptyString), h', r)
    /\ heap_ordered h' /\ heap_plain h'
    /\ (global_env < List.length h')%nat.
Proof.
  apply (X17_repl_turn_ends global_callables 1 (InStream_init ["x"])
           (mkInStream [] (Some EmptyString)) (Ok (Symbol (Tok "x"))) global_heap
           eq_refl).
  - intros [|b] fr o; simpl; [intros [= <-]; simpl; discriminate | discriminate].
  - intros [|b] fr k v; simpl; [|discriminate]. intros [= <-]. simpl.
    intros Hv. apply lookup_singleton_Some in Hv as [_ <-]. reflexivity.
  - unfold global_env, global_heap. simpl. lia.
Defined.

(** ** Termination of the tokenizer and of the reader *)

Lemma re_star_props (p : ascii -> bool) (s m k : string) :
  re_star p s = (m, k) ->
  (String.length m + String.length k = String.length s)%nat
  /\ (clean s = true -> clean m = true /\ clean k = true)
  /\ match k with
     | EmptyString => True
     | String c _ => p c = false
     end.
Proof.
  revert m k. induction s as [|c r IH]; intros m k.
  { intros [= <- <-]. auto. }
  simpl. destruct (p c) eqn:E.
  - destruct (re_star p r) as [m' k'] eqn:Er. intros [= <- <-].
    destruct (IH m' k' eq_refl) as (Hlen & Hclean & Hhead).
    split; [simpl; lia|]. split; [|exact Hhead].
    intros H. apply andb_prop in H as [Hc Hr].
    destruct (Hclean Hr) as [Hm Hk]. simpl. rewrite Hc, Hm. auto.
  - intros [= <- <-]. split; [reflexivity|]. split; [auto | exact E].
Qed.

Lemma TOKEN_REGEX_groups_clean (l tok rest : string) :
  TOKEN_REGEX_groups l = (tok, rest) -> clean l = true ->
  clean rest = true
  /\ (String.length tok + String.length rest <= String.length l)%nat
  /\ (nonempty tok = false -> rest = EmptyString).
Proof.
  unfold TOKEN_REGEX_groups. intros Hg Hl.
  destruct (re_star re_space l) as [ws s2] eqn:Hws.
  destruct (re_star_props _ _ _ _ Hws) as (Hlen & Hclean & Hhead).
  destruct (Hclean Hl) as [_ Hs2]. cbn [snd] in Hg.
  destruct s2 as [|c r]; [injection Hg as <- <-; simpl; repeat split; lia|].
  cbn [clean] in Hs2. apply andb_prop in Hs2 as [Hc Hr].
  apply negb_true_iff, orb_false_elim in Hc as [Hun Hq].
  simpl in Hlen.
  destruct (is_paren c) eqn:Hp.
  { injection Hg as <- <-.
    destruct (re_star re_dot r) as [m k] eqn:Hm.
    destruct (re_star_props _ _ _ _ Hm) as (Hlen' & Hclean' & _).
    destruct (Hclean' Hr) as [Hcm _]. simpl.
    split; [exact Hcm|]. split; [lia | discriminate]. }
  rewrite Hq in Hg.
  destruct (is_semicolon c) eqn:Hsc.
  { destruct (re_star re_dot (String c r)) as [m k] eqn:Hm.
    injection Hg as <- <-.
    destruct (re_star_props _ _ _ _ Hm) as (Hlen' & Hclean' & _).
    destruct (Hclean' ltac:(simpl; rewrite Hun, Hq, Hr; reflexivity)) as [_ Hck].
    destruct (re_star re_dot k) as [m2 k2] eqn:Hm2.
    destruct (re_star_props _ _ _ _ Hm2) as (Hlen2 & Hclean2 & _).
    destruct (Hclean2 Hck) as [Hcm2 _]. simpl in *.
    split; [exact Hcm2|]. split; [lia|].
    apply N.eqb_eq, code_ascii in Hsc. subst c. simpl in Hm.
    destruct (re_star re_dot r). injection Hm as <- <-. discriminate. }
  destruct (re_star re_bare (String c r)) as [m k] eqn:Hm.
  injection Hg as <- <-.
  destruct (re_star_props _ _ _ _ Hm) as (Hlen' & Hclean' & _).
  destruct (Hclean' ltac:(simpl; rewrite Hun, Hq, Hr; reflexivity)) as [_ Hck].
  destruct (re_star re_dot k) as [m2 k2] eqn:Hm2.
  destruct (re_star_props _ _ _ _ Hm2) as (Hlen2 & Hclean2 & _).
  destruct (Hclean2 Hck) as [Hcm2 _]. simpl in *.
  split; [exact Hcm2|]. split; [lia|].
  assert (Hbare : re_bare c = true).
  { unfold re_bare. cbv zeta. rewrite Hhead.
    unfold is_paren in Hp. apply orb_false_elim in Hp as [Hp1 Hp2].
    unfold re_unmatched in Hun. cbv zeta in Hun.
    apply orb_false_elim in Hun as [Hun Hu3].
    apply orb_false_elim in Hun as [Hu1 Hu2].
    unfold is_dquote in Hq. unfold is_semicolon in Hsc.
    rewrite Hp1, Hp2, Hu1, Hu2, Hu3, Hq, Hsc. reflexivity. }
  rewrite Hbare in Hm. destruct (re_star re_bare r). injection Hm as <- <-.
  discriminate.
Qed.

Lemma pending_lines_cons (l : string) (ls : list string) :
  list_sum (map (fun l => S (String.length l)) (l :: ls))
  = (S (String.length l) + list_sum (map (fun l => S (String.length l)) ls))%nat.
Proof. reflexivity. Qed.

Lemma next_clean_falsy (src : list string) :
  forall (b : option string) (fuel : nat),
    line_falsy b = true -> Forall (fun l => clean l = true) src ->
    (List.length src + 1 <= fuel)%nat ->
    exists t st',
      next fuel (mkInStream src b) = Some (t, st')
      /\ stream_clean st'
      /\ (List.length (f st') <= List.length src)%nat
      /\ (pending st' <= list_sum (map (fun l => S (String.length l)) src))%nat
      /\ (t = EOF_TOKEN
          \/ (pending st' < list_sum (map (fun l => S (String.length l)) src))%nat).
Proof.
  induction src as [|l ls IH]; intros b fuel Hb Hsrc Hfuel;
    (destruct fuel as [|n]; [simpl in Hfuel; lia|]);
    cbn [next line f]; rewrite Hb; cbn [readline].
  { exists EOF_TOKEN, (mkInStream [] (Some EmptyString)).
    repeat split; simpl; auto. }
  apply Forall_cons in Hsrc as [Hl Hls]. simpl in Hfuel.
  rewrite pending_lines_cons.
  destruct l as [|c l'].
  { exists EOF_TOKEN, (mkInStream ls (Some EmptyString)).
    split; [reflexivity|]. unfold stream_clean, pending.
    cbn [line f default from_option id String.length List.length clean].
    split; [auto|]. split; [lia|]. split; [lia | left; reflexivity]. }
  cbn [nonempty negb].
  destruct (TOKEN_REGEX_groups (String c l')) as [tok rest] eqn:Hg.
  destruct (TOKEN_REGEX_groups_clean _ _ _ Hg Hl) as (Hrest & Hlen & Hempty).
  destruct (nonempty tok) eqn:Htok.
  - exists (Tok tok), (mkInStream ls (Some rest)). split; [reflexivity|].
    assert (1 <= String.length tok)%nat by (destruct tok; [discriminate | simpl; lia]).
    unfold stream_clean, pending. cbn [line f default from_option id List.length].
    split; [auto|]. split; [lia|]. split; [lia | right; lia].
  - rewrite (Hempty eq_refl).
    destruct (IH (Some EmptyString) n eq_refl Hls ltac:(lia))
      as (t & st' & E & Hc & Hf & Hp & Hlt).
    exists t, st'. split; [exact E|]. split; [exact Hc|].
    cbn [List.length]. split; [lia|]. split; [lia | right; lia].
Qed.

Lemma next_clean (fuel : nat) (st : InStream) :
  stream_clean st -> (List.length (f st) + 2 <= fuel)%nat ->
  exists t st',
    next fuel st = Some (t, st')
    /\ stream_clean st'
    /\ (List.length (f st') <= List.length (f st))%nat
    /\ (pending st' <= pending st)%nat
    /\ (t = EOF_TOKEN \/ (pending st' < pending st)%nat).
Proof.
  destruct st as [src b]. intros [Hb Hsrc] Hfuel. cbn [f line] in *.
  destruct (line_falsy b) eqn:Hf.
  - destruct (next_clean_falsy src b fuel Hf Hsrc ltac:(lia))
      as (t & st' & E & Hc & Hlen & Hp & Hlt).
    exists t, st'. split; [exact E|]. split; [exact Hc|].
    assert (Hpe : pending (mkInStream src b)
                  = list_sum (map (fun l => S (String.length l)) src)).
    { unfold pending. cbn [f line]. destruct b as [[|c l]|]; try discriminate;
        reflexivity. }
    rewrite Hpe. split; [lia|]. split; [lia|].
    destruct Hlt; [left; assumption | right; lia].
  - destruct b as [[|c l]|]; try discriminate.
    destruct fuel as [|n]; [lia|].
    cbn [next line f line_falsy default from_option id nonempty negb].
    cbn [default from_option id] in Hb.
    destruct (TOKEN_REGEX_groups (String c l)) as [tok rest] eqn:Hg.
    destruct (TOKEN_REGEX_groups_clean _ _ _ Hg Hb) as (Hrest & Hlen & Hempty).
    assert (Hpe : pending (mkInStream src (Some (String c l)))
                  = (String.length (String c l)
                     + list_sum (map (fun l => S (String.length l)) src))%nat)
      by reflexivity.
    rewrite Hpe.
    destruct (nonempty tok) eqn:Htok.
    + exists (Tok tok), (mkInStream src (Some rest)). split; [reflexivity|].
      assert (1 <= String.length tok)%nat by (destruct tok; [discriminate | simpl; lia]).
      unfold stream_clean, pending. cbn [line f default from_option id].
      split; [auto|]. split; [lia|]. split; [lia | right; lia].
    + rewrite (Hempty eq_refl).
      destruct (next_clean_falsy src (Some EmptyString) n eq_refl Hsrc ltac:(lia))
        as (t & st' & E & Hc & Hf' & Hp & Hlt).
      exists t, st'. split; [exact E|]. split; [exact Hc|].
      split; [lia|]. split; [lia|].
      destruct Hlt; [left; assumption | right; lia].
Qed.

Lemma read_ahead_list_clean (n : nat) :
  (forall token st,
      stream_clean st ->
      (2 * pending st + List.length (f st) + 4 <= n)%nat ->
      exists st' r,
        read_ahead n token st = Some (st', r)
        /\ stream_clean st'
        /\ (List.length (f st') <= List.length (f st))%nat
        /\ (pending st' <= pending st)%nat) /\
  (forall L st,
      stream_clean st ->
      (2 * pending st + List.length (f st) + 3 <= n)%nat ->
      exists st' r,
        read_list n L st = Some (st', r)
        /\ stream_clean st'
        /\ (List.length (f st') <= List.length (f st))%nat
        /\ (pending st' <= pending st)%nat).
Proof.
  induction n as [|n [IHa IHl]]; [split; intros; lia|].
  split.
  - intros token st Hc Hn. cbn [read_ahead].
    destruct (String.eqb (text token) "("); [apply IHl; [exact Hc | lia]|].
    destruct (String.eqb (text token) ")");
      [eexists _, _; split; [reflexivity|]; auto|].
    destruct (is_EOF_TOKEN token); eexists _, _; (split; [reflexivity|]); auto.
  - intros L st Hc Hn. cbn [read_list].
    destruct (next_clean n st Hc ltac:(lia)) as (t & st1 & E & Hc1 & Hf1 & Hp1 & Hlt).
    rewrite E.
    destruct (String.eqb (text t) ")") eqn:Eclose;
      [eexists _, _; split; [reflexivity|]; auto|].
    destruct Hlt as [->|Hlt].
    + destruct n as [|n']; [lia|]. cbn [read_ahead text is_EOF_TOKEN].
      change (String.eqb "#<eof-object>" "(") with false.
      change (String.eqb "#<eof-object>" ")") with false.
      cbn iota. eexists _, _. split; [reflexivity|]. auto.
    + destruct (IHa t st1 Hc1 ltac:(lia)) as (st2 & r & E2 & Hc2 & Hf2 & Hp2).
      rewrite E2. destruct r as [x|e].
      * destruct (IHl (L ++ [x]) st2 Hc2 ltac:(lia)) as (st3 & r3 & E3 & Hc3 & Hf3 & Hp3).
        exists st3, r3. split; [exact E3|]. repeat split; try apply Hc3; lia.
      * exists st2, (Raise e). split; [reflexivity|].
        repeat split; try apply Hc2; lia.
Qed.

(** X18. On input that holds no single quote, backquote, comma or
    double quote, the tokenizer and the reader always end.  [next] gives
    a token or the end of the input within one turn of its loop per
    remaining line plus two; [read] gives an expression or an exception
    within a budget linear in the number of characters left.  Both leave
    a stream of the same kind with no more characters pending than
    before, and [next] leaves strictly fewer when it returns a token of
    the input. *)
Theorem X18_clean_input_terminates (fuel : nat) (st : InStream) :
  stream_clean st ->
  ((List.length (f st) + 2 <= fuel)%nat ->
   exists t st',
     next fuel st = Some (t, st')
     /\ stream_clean st' /\ (pending st' <= pending st)%nat
     /\ (t = EOF_TOKEN \/ (pending st' < pending st)%nat))
  /\ ((2 * pending st + List.length (f st) + 4 <= fuel)%nat ->
      exists st' r,
        read fuel st = Some (st', r)
        /\ stream_clean st' /\ (pending st' <= pending st)%nat).
Proof.
  intros Hc. split.
  - intros Hfuel.
    destruct (next_clean fuel st Hc Hfuel) as (t & st' & E & Hc' & _ & Hp & Hlt).
    exists t, st'. auto.
  - intros Hfuel. unfold read.
    destruct (next_clean fuel st Hc ltac:(lia)) as (t & st1 & E & Hc1 & Hf1 & Hp1 & _).
    rewrite E. destruct (is_EOF_TOKEN t).
    + exists st1, (Ok EOF_SYMBOL). auto.
    + destruct (proj1 (read_ahead_list_clean fuel) t st1 Hc1 ltac:(lia))
        as (st2 & r & E2 & Hc2 & _ & Hp2).
      exists st2, r. split; [exact E2|]. split; [exact Hc2 | lia].
Qed.

Lemma X18_clean_input_terminates_witness :
  exists st' r,
    read 20 (InStream_init ["(+ 1 2"]) = Some (st', r)
    /\ stream_clean st'
    /\ (pending st' <= pending (InStream_init ["(+ 1 2"]))%nat.
Proof.
  refine (proj2 (X18_clean_input_terminates 20 (InStream_init ["(+ 1 2"]) _) _).
  - split; [reflexivity | repeat constructor].
  - vm_compute. repeat constructor.
Defined.

(** ** A definition used right away *)

(** X19. [(begin (define s v) s)] returns [v] itself, not its value: the
    expression bound by [define] is handed back unevaluated by the lookup,
    whatever [v] is (a form such as [(+ 1 2)], or the empty list, whose
    evaluation would raise).  The binding lands in the new frame and the
    frames that existed are untouched. *)
Theorem X19_define_then_lookup_returns_raw
    (callables : nat -> list Expression -> Result Raw) (fuel : nat)
    (s : Token) (v : Expression) (a : addr) (h : heap) :
  nonempty (text s) = true ->
  eval_ callables (3 + fuel)
    (Some (List [Symbol (Tok "begin");
                 List [Symbol (Tok "define"); Symbol s; v];
                 Symbol s])) a h
  = Some (h ++ [mkEnvironment {[text s := v]} (Some a)], Ok v).
Proof.
  intros Hs. apply (eval_mono _ 3); [lia|].
  cbn [eval_ falsy truthy negb]. 
  change (eq_Symbol (Symbol (Tok "begin")) DEFINE) with false.
  change (eq_Symbol (Symbol (Tok "begin")) BEGIN) with true. cbn iota.
  unfold bind at 1. unfold new_Environment. cbn [Environment_init forallb].
  change (bind_params [] []) with (∅ : gmap string Expression).
  cbn [mapM]. unfold bind at 1. unfold bind at 1.
  cbn [eval_ falsy truthy negb].
  change (eq_Symbol (Symbol (Tok "define")) DEFINE) with true. cbn iota.
  unfold bind at 1, Environment_setitem. cbn [isinstance_Symbol negb].
  rewrite list_lookup_middle by reflexivity. cbn [ret env outer key].
  unfold bind at 1. unfold bind at 1. cbn [eval_ falsy truthy]. rewrite Hs.
  cbn [negb Environment_getitem isinstance_Symbol].
  rewrite list_lookup_insert_eq by (rewrite length_app; simpl; lia).
  cbn [env key]. rewrite lookup_insert_eq.
  cbn [ret bind lift last_value last]. unfold bind, ret, lift. cbn.
  rewrite insert_app_r_alt by reflexivity. rewrite Nat.sub_diag.
  cbn [insert list_insert]. rewrite insert_empty. reflexivity.
Qed.

Lemma X19_define_then_lookup_returns_raw_witness :
  eval_ global_callables 3
    (Some (List [Symbol (Tok "begin");
                 List [Symbol (Tok "define"); Symbol (Tok "a"); List []];
                 Symbol (Tok "a")])) global_env global_heap
  = Some (global_heap ++ [mkEnvironment {["a" := List []]} (Some global_env)],
          Ok (List [])).
Proof.
  exact (X19_define_then_lookup_returns_raw global_callables 0 (Tok "a") (List [])
           global_env global_heap eq_refl).
Defined.

(** ** Double-quoted strings *)

Lemma TOKEN_REGEX_groups_dquote (r : string) :
  TOKEN_REGEX_groups (String (ascii_of_N 34) r)
  = match re_string_body r with
    | Some (m, k) => (String (ascii_of_N 34) m, fst (re_star re_dot k))
    | None => (EmptyString, fst (re_star re_dot (String (ascii_of_N 34) r)))
    end.
Proof. reflexivity. Qed.

(** X20. A double-quoted string at the head of the buffer is one token,
    quotes included, whatever it holds between them (spaces, parentheses,
    semicolons, escaped quotes); [read] returns it as a [Symbol] holding
    that text, never as a [Number]. *)
Theorem X20_string_is_one_symbol (fuel : nat) (src : list string)
    (r m k : string) :
  re_string_body r = Some (m, k) ->
  let st := mkInStream src (Some (String (ascii_of_N 34) r)) in
  let st' := mkInStream src (Some (fst (re_star re_dot k))) in
  next (S fuel) st = Some (Tok (String (ascii_of_N 34) m), st')
  /\ read (S fuel) st = Some (st', Ok (Symbol (Tok (String (ascii_of_N 34) m)))).
Proof.
  intros Hr st st'.
  assert (Hn : next (S fuel) st = Some (Tok (String (ascii_of_N 34) m), st')).
  { unfold st, st'. apply next_token; [reflexivity | | reflexivity].
    rewrite TOKEN_REGEX_groups_dquote, Hr. reflexivity. }
  split; [exact Hn|]. unfold read. rewrite Hn. reflexivity.
Qed.

Lemma X20_string_is_one_symbol_witness :
  read 1 (mkInStream [] (Some (String (ascii_of_N 34)
                                 ("a (b; " +:+ String (ascii_of_N 34) " c"))))
  = Some (mkInStream [] (Some " c"),
          Ok (Symbol (Tok (String (ascii_of_N 34)
                             ("a (b; " +:+ String (ascii_of_N 34) EmptyString))))).
Proof.
  exact (proj2 (X20_string_is_one_symbol 0 []
                  ("a (b; " +:+ String (ascii_of_N 34) " c")
                  ("a (b; " +:+ String (ascii_of_N 34) EmptyString) " c" eq_refl)).
Defined.

Lemma re_string_body_open (n : nat) (r : string) :
  (String.length r <= n)%nat ->
  re_string_body r = None ->
  re_string_body (fst (re_star re_dot r)) = None.
Proof.
  revert r. induction n as [|n IH]; intros r Hlen.
  { destruct r; [reflexivity | simpl in Hlen; lia]. }
  destruct r as [|c r]; [reflexivity|]. simpl in Hlen.
  cbn [re_string_body re_star].
  destruct (is_dquote c) eqn:Hq; [discriminate|].
  destruct (re_dot c) eqn:Hc.
  2:{ intros _. reflexivity. }
  destruct (is_backslash c) eqn:Hb.
  - destruct r as [|d r'].
    { intros _. cbn. rewrite Hq, Hb. reflexivity. }
    simpl in Hlen. cbn [re_star]. destruct (re_dot d) eqn:Hd.
    + destruct (re_string_body r') as [[m k]|] eqn:Hr'; [discriminate|]. intros _.
      pose proof (IH r' ltac:(lia) Hr') as Hopen.
      destruct (re_star re_dot r') as [m1 k1]. cbn [fst] in *.
      cbn [re_string_body]. rewrite Hq, Hb, Hd, Hopen. reflexivity.
    + intros _. cbn. rewrite Hq, Hb. reflexivity.
  - destruct (re_string_body r) as [[m k]|] eqn:Hr; [discriminate|]. intros _.
    pose proof (IH r ltac:(lia) Hr) as Hopen.
    destruct (re_star re_dot r) as [m1 k1]. cbn [fst] in *.
    cbn [re_string_body]. rewrite Hq, Hb, Hopen. reflexivity.
Qed.

(** X21. A double quote that is not closed stops the tokenizer for good:
    when the buffer starts with a double quote and no closing quote
    follows, [next] loops on that buffer and returns nothing, whatever the
    budget. *)
Theorem X21_next_loops_on_open_string (fuel : nat) (src : list string)
    (r : string) :
  re_string_body r = None ->
  next fuel (mkInStream src (Some (String (ascii_of_N 34) r))) = None.
Proof.
  intros Hr. destruct fuel as [|n]; [reflexivity|].
  cbn [next line f line_falsy default from_option id nonempty negb].
  rewrite TOKEN_REGEX_groups_dquote, Hr. cbn [nonempty re_star].
  change (re_dot (ascii_of_N 34)) with true. cbn iota.
  pose proof (re_string_body_open _ r (le_n _) Hr) as Hopen.
  pose proof (re_star_fst_idem re_dot r) as Hidem.
  destruct (re_star re_dot r) as [m k]. cbn [fst] in *.
  apply next_stuck; [reflexivity|].
  rewrite TOKEN_REGEX_groups_dquote, Hopen. cbn [re_star].
  change (re_dot (ascii_of_N 34)) with true. cbn iota. rewrite Hidem. reflexivity.
Qed.

Lemma X21_next_loops_on_open_string_witness :
  next 1000 (mkInStream ["x"] (Some (String (ascii_of_N 34) "abc (d)"))) = None.
Proof.
  exact (X21_next_loops_on_open_string 1000 ["x"] "abc (d)" eq_refl).
Defined.
